(** * Flexer: a shallow embedding of [flexer.hpp]

    The layout engine of [flexer.hpp] keeps two ordered maps, the element
    registry [m_elements] and the rectangle map [m_elementLayoutRects], and
    one counter [m_globalID].  The functions below follow the C++ member
    functions statement by statement, passing the engine state explicitly.

    Integers.  [int] is a 32-bit two's complement integer and
    [unsigned int] a 32-bit unsigned one.  Both are carried by [Z] (the
    unsigned fields of [Element] by [N]); every arithmetic result is
    brought back into range by [to_int], which is the conversion that C++
    applies when an [unsigned int] result is stored into an [int], and the
    wrap-around of the usual two's complement targets for the purely
    signed operations.  Since [to_int] only depends on its argument modulo
    2^32, the intermediate conversion of the operands to [unsigned int] is
    not written out.  [EID] is [uint64_t], carried by [N].

    Pointers.  [getElement] returns [nullptr] for an unknown id; the code
    dereferences its result without a test in several places.  Such a
    dereference ends the run with [NullDeref].

    Recursion.  [performContainerLayout] recurses through the children
    lists, which the engine never checks for cycles.  The embedding is
    given fuel and answers [OutOfFuel] when it is exhausted. *)

From stdpp Require Import base numbers option list relations sorting gmap.
From Stdlib Require Import ZArith Lia.

Local Open Scope Z_scope.

(** ** 32-bit arithmetic *)

Definition INT_MIN : Z := - 2 ^ 31.
Definition INT_MAX : Z := 2 ^ 31 - 1.

(** The value of type [int] congruent to [z] modulo 2^32. *)
Definition to_int (z : Z) : Z := (z + 2 ^ 31) mod 2 ^ 32 - 2 ^ 31.

Definition in_int (z : Z) : Prop := INT_MIN <= z <= INT_MAX.

(** ** Data model *)

Inductive Axis := Horizontal | Vertical.

Record Rect := mkRect { x : Z; y : Z; width : Z; height : Z }.

(** [Rect() = default]: the member initialisers of the struct. *)
Definition defaultRect : Rect := mkRect 0 0 100 100.

(** [using EID = uint64_t]. *)
Abbreviation EID := N (only parsing).

Record Element := mkElement {
  parent : EID;
  bounds : Rect;
  proportion : N;
  border : N;
  spacing : N;
  children : list EID;
  axis : Axis
}.

(** [Element()]: the member initialisers of the struct. *)
Definition defaultElement : Element :=
  mkElement 0%N defaultRect 1%N 3%N 3%N [] Horizontal.

Record Flexer := mkFlexer {
  m_globalID : EID;
  m_elements : gmap N Element;
  m_elementLayoutRects : gmap N Rect
}.

(** [Flexer() = default]. *)
Definition newFlexer : Flexer := mkFlexer 1%N ∅ ∅.

Global Instance Axis_eq_dec : EqDecision Axis.
Proof. solve_decision. Defined.
Global Instance Rect_eq_dec : EqDecision Rect.
Proof. solve_decision. Defined.
Global Instance Element_eq_dec : EqDecision Element.
Proof. solve_decision. Defined.

(** Outcome of a run of the layout pass. *)
Inductive outcome (A : Type) : Type :=
| Done (a : A)
| NullDeref
| OutOfFuel.
Arguments Done {A} a.
Arguments NullDeref {A}.
Arguments OutOfFuel {A}.

(** ** State updates *)

Definition set_elements (m : gmap N Element) (st : Flexer) : Flexer :=
  mkFlexer (m_globalID st) m (m_elementLayoutRects st).

Definition set_rects (r : gmap N Rect) (st : Flexer) : Flexer :=
  mkFlexer (m_globalID st) (m_elements st) r.

(** [m_elementLayoutRects[id] = r]. *)
Definition setRect (id : EID) (r : Rect) (st : Flexer) : Flexer :=
  set_rects (<[id := r]> (m_elementLayoutRects st)) st.

(** [m_elementLayoutRects[id]] read as an rvalue: [std::map::operator[]]
    inserts a value-initialised [Rect] when the key is absent, and yields
    the mapped value. *)
Definition rectAt (id : EID) (st : Flexer) : Rect * Flexer :=
  match m_elementLayoutRects st !! id with
  | Some r => (r, st)
  | None => (defaultRect, setRect id defaultRect st)
  end.

(** ** Registration *)

(** [Flexer::getElement]: [None] is [nullptr]. *)
Definition getElement (id : EID) (st : Flexer) : option Element :=
  m_elements st !! id.

(** [Flexer::getElementRect]. *)
Definition getElementRect (id : EID) (st : Flexer) : Rect * Flexer :=
  rectAt id st.

(** [Flexer::rects]. *)
Definition rects (st : Flexer) : gmap N Rect := m_elementLayoutRects st.

(** [Flexer::addParent].  [m_elements[parent]] on an unknown [parent]
    yields a null [unique_ptr], whose dereference is [None] here. *)
Definition addParent (id parent_ : EID) (st : Flexer) : option Flexer :=
  if decide (parent_ = 0%N) then Some st
  else
    el ← m_elements st !! id;
    let m1 := <[id := mkElement parent_ (bounds el) (proportion el) (border el)
                       (spacing el) (children el) (axis el)]> (m_elements st) in
    p ← m1 !! parent_;
    Some (set_elements
            (<[parent_ := mkElement (parent p) (bounds p) (proportion p) (border p)
                           (spacing p) (children p ++ [id]) (axis p)]> m1) st).

(** [Flexer::createElement].  [m_globalID++] is taken modulo 2^64. *)
Definition createElement (el : Element) (st : Flexer) : option (EID * Flexer) :=
  let id := m_globalID st in
  let fresh := mkElement (parent defaultElement) (bounds el) (proportion el)
                 (border el) (spacing el) (children defaultElement) (axis el) in
  let st1 := mkFlexer ((id + 1) mod 2 ^ 64)%N (<[id := fresh]> (m_elements st))
               (m_elementLayoutRects st) in
  st2 ← addParent id (parent el) st1;
  Some (id, st2).

(** ** Layout *)

(** The axis-selected components of a rectangle. *)
Definition mainSize (a : Axis) (r : Rect) : Z :=
  match a with Horizontal => width r | Vertical => height r end.
Definition crossSize (a : Axis) (r : Rect) : Z :=
  match a with Horizontal => height r | Vertical => width r end.
Definition mainPos (a : Axis) (r : Rect) : Z :=
  match a with Horizontal => x r | Vertical => y r end.

(** First loop of [performContainerLayout]:
    [totalProportions += getElement(e)->proportion]. *)
Fixpoint sumProportions (st : Flexer) (cs : list EID) (acc : Z) : option Z :=
  match cs with
  | [] => Some acc
  | e :: cs' =>
      c ← getElement e st;
      sumProportions st cs' (to_int (acc + Z.of_N (proportion c)))
  end.

(** [totalProportions <= 0 ? 1 : totalProportions]. *)
Definition normalise (tp : Z) : Z := if tp <=? 0 then 1 else tp.

Definition totalProportions (st : Flexer) (cs : list EID) : option Z :=
  normalise <$> sumProportions st cs 0.

(** [compSize -= size], where [compSize] is a reference to the width or
    to the height of [parentBounds]. *)
Definition shrinkMain (a : Axis) (pb : Rect) (size : Z) : Rect :=
  match a with
  | Horizontal => mkRect (x pb) (y pb) (to_int (width pb - size)) (height pb)
  | Vertical => mkRect (x pb) (y pb) (width pb) (to_int (height pb - size))
  end.

(** Second loop: the sizes of the children of proportion 0 are taken off
    [parentBounds] through the reference [compSize]. *)
Fixpoint reserveFixed (st : Flexer) (a : Axis) (cs : list EID) (pb : Rect)
  : option Rect :=
  match cs with
  | [] => Some pb
  | e :: cs' =>
      c ← getElement e st;
      let size := mainSize a (bounds c) in
      reserveFixed st a cs'
        (if decide (proportion c = 0%N) then shrinkMain a pb size else pb)
  end.

(** [const int size = (horizontal ? parentBounds.width : parentBounds.height)
    - el->border * 2], read after the second loop. *)
Definition availableMainSize (el : Element) (parentBounds : Rect) : Z :=
  to_int (mainSize (axis el) parentBounds - Z.of_N (border el) * 2).

(** [el->children.back()]; only used on a non-empty vector. *)
Definition back (cs : list EID) : EID := List.last cs 0%N.

(** Body of the third loop up to the store into the rectangle map: the
    rectangle [ret] of child [e] (whose element is [c]) and the updated
    [parentBounds]. *)
Definition placeChild (el : Element) (size total : Z) (e : EID) (c : Element)
    (parentBounds : Rect) : Rect * Rect :=
  let b := Z.of_N (border el) in
  let ret0 := bounds c in
  let retx := to_int (x ret0 + (x parentBounds + b)) in
  let rety := to_int (y ret0 + (y parentBounds + b)) in
  match axis el with
  | Horizontal =>
      let sizeSlice :=
        Z.quot (to_int (size - (if decide (proportion c = 0%N) then width ret0 else 0)))
               total in
      let w := if decide (1 <= proportion c)%N
               then to_int (sizeSlice * Z.of_N (proportion c)) else width ret0 in
      let h := to_int (height parentBounds - b * 2) in
      let pb' := mkRect (to_int (x parentBounds + w)) (y parentBounds)
                   (to_int (width parentBounds - w)) (height parentBounds) in
      let w' := if decide (e ≠ back (children el))
                then to_int (w - Z.of_N (spacing el)) else w in
      (mkRect retx rety w' h, pb')
  | Vertical =>
      let sizeSlice :=
        Z.quot (to_int (size - (if decide (proportion c = 0%N) then height ret0 else 0)))
               total in
      let h := if decide (1 <= proportion c)%N
               then to_int (sizeSlice * Z.of_N (proportion c)) else height ret0 in
      let w := to_int (width parentBounds - b * 2) in
      let pb' := mkRect (x parentBounds) (to_int (y parentBounds + h))
                   (width parentBounds) (to_int (height parentBounds - h)) in
      let h' := if decide (e ≠ back (children el))
                then to_int (h - Z.of_N (spacing el)) else h in
      (mkRect retx rety w h', pb')
  end.

(** Third loop.  [rec] is the recursive call [performContainerLayout(e)]. *)
Fixpoint layoutChildren (rec : EID → Flexer → outcome Flexer)
    (el : Element) (size total : Z) (cs : list EID) (parentBounds : Rect)
    (st : Flexer) : outcome Flexer :=
  match cs with
  | [] => Done st
  | e :: cs' =>
      match getElement e st with
      | None => NullDeref
      | Some c =>
          let '(ret, pb') := placeChild el size total e c parentBounds in
          match rec e (setRect e ret st) with
          | Done st' => layoutChildren rec el size total cs' pb' st'
          | NullDeref => NullDeref
          | OutOfFuel => OutOfFuel
          end
      end
  end.

(** [if (el->parent == 0) m_elementLayoutRects[id] = el->bounds;]. *)
Definition seedRoot (id : EID) (el : Element) (st : Flexer) : Flexer :=
  if decide (parent el = 0%N) then setRect id (bounds el) st else st.

(** [Flexer::performContainerLayout]. *)
Fixpoint performContainerLayout (fuel : nat) (id : EID) (st : Flexer)
  : outcome Flexer :=
  match fuel with
  | O => OutOfFuel
  | S fuel' =>
      match getElement id st with
      | None => Done st
      | Some el =>
          let st1 := seedRoot id el st in
          match totalProportions st1 (children el) with
          | None => NullDeref
          | Some total =>
              match children el with
              | [] => Done st1
              | _ :: _ =>
                  let '(parentBounds0, st2) := rectAt id st1 in
                  match reserveFixed st2 (axis el) (children el) parentBounds0 with
                  | None => NullDeref
                  | Some parentBounds =>
                      let size := availableMainSize el parentBounds in
                      layoutChildren (performContainerLayout fuel') el size total
                        (children el) parentBounds st2
                  end
              end
          end
      end
  end.

(** [Flexer::performLayout]. *)
Definition performLayout (fuel : nat) (st : Flexer) : outcome Flexer :=
  performContainerLayout fuel 1%N st.

(** Successive registrations, as a host builds its tree. *)
Fixpoint createAll (els : list Element) (st : Flexer)
  : option (list EID * Flexer) :=
  match els with
  | [] => Some ([], st)
  | el :: els' =>
      '(id, st1) ← createElement el st;
      '(ids, st2) ← createAll els' st1;
      Some (id :: ids, st2)
  end.

(** ** The tree held by the registry *)

(** [c] is listed among the children of [p]. *)
Definition is_child (E : gmap N Element) (p c : EID) : Prop :=
  ∃ el, E !! p = Some el ∧ c ∈ children el.

(** The shape that [createElement] builds when every [parent] handed to it
    names an element created before: identities lie strictly between the
    sentinel and the counter, a children list has no repetition, and a
    listed child is younger than its container and points back to it. *)
Definition wf_tree (st : Flexer) : Prop :=
  (0 < m_globalID st)%N ∧
  map_Forall (λ id el,
      (0 < id < m_globalID st)%N ∧ NoDup (children el) ∧
      Forall (λ c, (id < c)%N ∧ parent <$> (m_elements st !! c) = Some id)
             (children el))
    (m_elements st).

Global Instance wf_tree_dec st : Decision (wf_tree st).
Proof. unfold wf_tree. apply _. Defined.

(** ** The rectangles a container hands to its children *)

(** The stores of the third loop, in order, without the recursive calls. *)
Fixpoint placeAll (st : Flexer) (el : Element) (size total : Z)
    (cs : list EID) (parentBounds : Rect) : list (EID * Rect) :=
  match cs with
  | [] => []
  | e :: cs' =>
      match getElement e st with
      | None => []
      | Some c =>
          let '(ret, pb') := placeChild el size total e c parentBounds in
          (e, ret) :: placeAll st el size total cs' pb'
      end
  end.

(** What [performContainerLayout] computes for the children of [el] when
    the rectangle of [el] is [R]. *)
Definition childRects (st : Flexer) (el : Element) (R : Rect)
  : option (list (EID * Rect)) :=
  total ← totalProportions st (children el);
  parentBounds ← reserveFixed st (axis el) (children el) R;
  Some (placeAll st el (availableMainSize el parentBounds) total
          (children el) parentBounds).

(** The rectangle with which the layout of [id] starts: the stored bounds
    of a root, and otherwise what the rectangle map holds for [id]. *)
Definition entryRect (id : EID) (st : Flexer) : Rect :=
  match getElement id st with
  | Some el =>
      if decide (parent el = 0%N) then bounds el
      else default defaultRect (m_elementLayoutRects st !! id)
  | None => default defaultRect (m_elementLayoutRects st !! id)
  end.

(** Sum of the stored main-axis sizes of the children of proportion 0. *)
Fixpoint fixedTotal (st : Flexer) (a : Axis) (cs : list EID) : Z :=
  match cs with
  | [] => 0
  | e :: cs' =>
      match getElement e st with
      | Some c =>
          (if decide (proportion c = 0%N) then mainSize a (bounds c) else 0)
          + fixedTotal st a cs'
      | None => 0
      end
  end.

(** Sum of the proportions of the children, without wrap-around. *)
Fixpoint proportionTotal (st : Flexer) (cs : list EID) : Z :=
  match cs with
  | [] => 0
  | e :: cs' =>
      match getElement e st with
      | Some c => Z.of_N (proportion c) + proportionTotal st cs'
      | None => 0
      end
  end.

(** Two runs that perform the same stores: on every key the two final
    maps agree, or both maps kept what they held. *)
Definition same_writes (r1 r2 r1' r2' : gmap N Rect) : Prop :=
  ∀ k, r1' !! k = r2' !! k ∨ (r1' !! k = r1 !! k ∧ r2' !! k = r2 !! k).

(** The rectangle map [r] holds, for container [d], a rectangle for [d]
    and for each child the rectangle that [childRects] derives from it. *)
Definition laid_out (st : Flexer) (r : gmap N Rect) (d : EID) : Prop :=
  ∀ el, getElement d st = Some el → children el ≠ [] →
    ∃ R rs, r !! d = Some R ∧ childRects st el R = Some rs ∧
            ∀ c rc, (c, rc) ∈ rs → r !! c = Some rc.

(** The main-axis size by which the third loop advances for child [c]:
    [ret.width] (or [ret.height]) before the spacing is taken off. *)
Definition childWidth (el : Element) (size total : Z) (c : Element) : Z :=
  let ret0 := mainSize (axis el) (bounds c) in
  let sizeSlice :=
    Z.quot (to_int (size - (if decide (proportion c = 0%N) then ret0 else 0))) total in
  if decide (1 <= proportion c)%N
  then to_int (sizeSlice * Z.of_N (proportion c)) else ret0.

Definition sumZ (l : list Z) : Z := foldr Z.add 0 l.

Definition widths (st : Flexer) (el : Element) (size total : Z) (cs : list EID)
  : list Z :=
  (λ e, match getElement e st with
        | Some c => childWidth el size total c
        | None => 0
        end) <$> cs.

(** A container whose layout stays within the non-negative, overflow-free
    range: the reserved sizes and the border fit in its main-axis size, no
    fixed child has a negative stored size, the proportions add up without
    wrap-around, the stored main-axis offsets of the children do not
    decrease along the sequence, and every position stays an [int]. *)
Definition orderly (st : Flexer) (el : Element) (R : Rect) : Prop :=
  let a := axis el in
  let b := Z.of_N (border el) in
  mainSize a R <= INT_MAX ∧
  fixedTotal st a (children el) + b * 2 <= mainSize a R ∧
  proportionTotal st (children el) <= INT_MAX ∧
  (∀ e c, e ∈ children el → getElement e st = Some c →
          proportion c = 0%N → 0 <= mainSize a (bounds c)) ∧
  (∀ i j ci cj c c', (i ≤ j)%nat →
          children el !! i = Some ci → children el !! j = Some cj →
          getElement ci st = Some c → getElement cj st = Some c' →
          mainPos a (bounds c) <= mainPos a (bounds c')) ∧
  (∀ e c, e ∈ children el → getElement e st = Some c →
          INT_MIN <= mainPos a R + b + mainPos a (bounds c) ∧
          mainPos a R + mainSize a R - b + mainPos a (bounds c) <= INT_MAX).

(** ** Example trees *)

(** Result of a pass for display in examples; the state is returned as it
    was when the pass does not finish. *)
Definition run (fuel : nat) (st : Flexer) : Flexer :=
  match performLayout fuel st with
  | Done st' => st'
  | _ => st
  end.

Definition built (els : list Element) : Flexer :=
  match createAll els newFlexer with
  | Some (_, st) => st
  | None => newFlexer
  end.

(** The tree of [main.cpp], for a 256 x 240 screen. *)
Definition demo : Flexer :=
  built [ mkElement 0%N (mkRect 10 10 236 220) 1%N 3%N 3%N [] Vertical;
          mkElement 1%N (mkRect 0 0 0 40) 0%N 3%N 3%N [] Horizontal;
          mkElement 2%N (mkRect 0 0 60 0) 1%N 3%N 3%N [] Horizontal;
          mkElement 2%N (mkRect 0 0 60 0) 0%N 3%N 3%N [] Horizontal;
          mkElement 2%N (mkRect 0 0 60 0) 1%N 3%N 3%N [] Horizontal ].

(** A container 300 wide with one fixed child 100 wide and one stretch
    child. *)
Definition mixed : Flexer :=
  built [ mkElement 0%N (mkRect 0 0 300 100) 1%N 0%N 0%N [] Horizontal;
          mkElement 1%N (mkRect 0 0 100 0) 0%N 0%N 0%N [] Horizontal;
          mkElement 1%N (mkRect 0 0 0 0) 1%N 0%N 0%N [] Horizontal ].

(** Two elements without parent. *)
Definition two_roots : Flexer :=
  built [ mkElement 0%N (mkRect 0 0 300 100) 1%N 0%N 0%N [] Horizontal;
          mkElement 0%N (mkRect 5 5 50 50) 1%N 0%N 0%N [] Horizontal ].

(** A container 10 wide with a border of 10 and two stretch children. *)
Definition cramped : Flexer :=
  built [ mkElement 0%N (mkRect 0 0 10 100) 1%N 10%N 0%N [] Horizontal;
          mkElement 1%N (mkRect 0 0 0 0) 1%N 0%N 0%N [] Horizontal;
          mkElement 1%N (mkRect 0 0 0 0) 1%N 0%N 0%N [] Horizontal ].

(** A container 300 wide whose first child is stored 200 to the right. *)
Definition shifted : Flexer :=
  built [ mkElement 0%N (mkRect 0 0 300 100) 1%N 0%N 0%N [] Horizontal;
          mkElement 1%N (mkRect 200 0 0 0) 1%N 0%N 0%N [] Horizontal;
          mkElement 1%N (mkRect 0 0 0 0) 1%N 0%N 0%N [] Horizontal ].

(** The scenario of three equal stretch children in a root 300 x 100 with
    spacing [s]; the remaining fields are left open. *)
Definition scenario_root (s p : N) : Element :=
  mkElement 0%N (mkRect 0 0 300 100) p 0%N s [] Horizontal.
Definition scenario_child (b s : N) (a : Axis) (cs : list EID) : Element :=
  mkElement 1%N (mkRect 0 0 0 0) 1%N b s cs a.

(** The distributable span as the specification words it: the main-axis
    size of the container's own rectangle minus twice the border. *)
Definition spec_availableMainSize (el : Element) (R : Rect) : Z :=
  to_int (mainSize (axis el) R - Z.of_N (border el) * 2).

(** ** Invariant of the registries that [createElement] builds *)

(** The counter is positive and the registered identities are those below
    it; an identity is listed in the children of [p] exactly when its
    element names [p], other than the sentinel, as parent; a children list
    is strictly increasing and holds no identity older than its owner. *)
Definition registry_inv (st : Flexer) : Prop :=
  (0 < m_globalID st)%N ∧
  (∀ k, is_Some (m_elements st !! k) ↔ (0 < k < m_globalID st)%N) ∧
  (∀ p c, is_child (m_elements st) p c ↔
          p ≠ 0%N ∧ parent <$> (m_elements st !! c) = Some p) ∧
  (∀ id el, m_elements st !! id = Some el →
            StronglySorted N.lt (children el) ∧
            Forall (λ c, (id ≤ c)%N) (children el)).


(** The position of a rectangle across the axis of its container. *)
Definition crossPos (a : Axis) (r : Rect) : Z :=
  match a with Horizontal => y r | Vertical => x r end.

(** ** The example program (main.cpp) *)

(** [Example::OnUserCreate].  [screenWidth] and [screenHeight] stand for
    what [ScreenWidth()] and [ScreenHeight()] of the host engine return; a
    field that an initialiser does not name keeps the default of
    [Element].  [None] is a null pointer dereference in [createElement]. *)
Definition OnUserCreate (screenWidth screenHeight : Z) : option Flexer :=
  '(par1, st) ← createElement
      (mkElement 0%N
         (mkRect 10 10 (to_int (screenWidth - 20)) (to_int (screenHeight - 20)))
         1%N 3%N 3%N [] Vertical)
      newFlexer;
  '(par2, st) ← createElement
      (mkElement par1 (mkRect 0 0 0 40) 0%N 3%N 3%N [] Horizontal) st;
  '(_, st) ← createElement
      (mkElement par2 (mkRect 0 0 60 0) 1%N 3%N 3%N [] Horizontal) st;
  '(_, st) ← createElement
      (mkElement par2 (mkRect 0 0 60 0) 0%N 3%N 3%N [] Horizontal) st;
  '(_, st) ← createElement
      (mkElement par2 (mkRect 0 0 60 0) 1%N 3%N 3%N [] Horizontal) st;
  Some st.

(** The order in which [std::map] iterates: ascending keys. *)
Definition key_le (a b : N * Rect) : Prop := (a.1 ≤ b.1)%N.

Global Instance key_le_dec a b : Decision (key_le a b).
Proof. unfold key_le. apply _. Defined.

(** The [DrawRect] calls of one frame, one per entry of [rects()]. *)
Definition drawn (st : Flexer) : list Rect :=
  (merge_sort key_le (map_to_list (rects st))).*2.

(** [Example::OnUserUpdate]: a layout pass, then the rectangles drawn. *)
Definition OnUserUpdate (fuel : nat) (st : Flexer)
  : outcome (list Rect * Flexer) :=
  match performLayout fuel st with
  | Done st' => Done (drawn st', st')
  | NullDeref => NullDeref
  | OutOfFuel => OutOfFuel
  end.

(** Two elements without parent, the second then listed among the
    children of the first: the state after two [createElement] calls and
    [getElement(1)->children.push_back(2)], [getElement] handing out a
    pointer to the element itself. *)
Definition adopted : Flexer :=
  mkFlexer 3%N
    (<[1%N := mkElement 0%N (mkRect 0 0 300 100) 1%N 0%N 0%N [2%N] Horizontal]>
       (<[2%N := mkElement 0%N (mkRect 7 8 9 10) 1%N 0%N 0%N [] Horizontal]> ∅))
    ∅.
(** ** Facts on 32-bit arithmetic *)

Lemma to_int_in_int z : in_int (to_int z).
Proof.
  unfold in_int, to_int, INT_MIN, INT_MAX.
  pose proof (Z.mod_pos_bound (z + 2 ^ 31) (2 ^ 32)). lia.
Qed.

Lemma to_int_id z : in_int z → to_int z = z.
Proof.
  unfold in_int, to_int, INT_MIN, INT_MAX. intros Hz.
  rewrite Z.mod_small; lia.
Qed.

Lemma to_int_eqm a b : (a - b) mod 2 ^ 32 = 0 → to_int a = to_int b.
Proof.
  unfold to_int. intros Hab. f_equal.
  replace (a + 2 ^ 31) with ((b + 2 ^ 31) + (a - b)) by lia.
  rewrite Z.add_mod, Hab, Z.add_0_r, Z.mod_mod by lia. done.
Qed.

Lemma to_int_diff z : (to_int z - z) mod 2 ^ 32 = 0.
Proof.
  unfold to_int.
  rewrite (Z.mod_eq (z + 2 ^ 31) (2 ^ 32)) by lia.
  replace (z + 2 ^ 31 - 2 ^ 32 * ((z + 2 ^ 31) `div` 2 ^ 32) - 2 ^ 31 - z)
    with ((- ((z + 2 ^ 31) `div` 2 ^ 32)) * 2 ^ 32) by lia.
  apply Z.mod_mul. lia.
Qed.

Lemma to_int_add_l a b : to_int (to_int a + b) = to_int (a + b).
Proof.
  apply to_int_eqm. replace (to_int a + b - (a + b)) with (to_int a - a) by lia.
  apply to_int_diff.
Qed.

Lemma to_int_add_r a b : to_int (a + to_int b) = to_int (a + b).
Proof. rewrite (Z.add_comm a), to_int_add_l. f_equal. lia. Qed.

Lemma to_int_sub_l a b : to_int (to_int a - b) = to_int (a - b).
Proof. unfold Z.sub. apply to_int_add_l. Qed.

(** ** The layout pass leaves the registry alone *)

Lemma rectAt_elements id st :
  m_elements (rectAt id st).2 = m_elements st ∧
  m_globalID (rectAt id st).2 = m_globalID st.
Proof. unfold rectAt. by destruct (m_elementLayoutRects st !! id). Qed.

Lemma seedRoot_elements id el st :
  m_elements (seedRoot id el st) = m_elements st ∧
  m_globalID (seedRoot id el st) = m_globalID st.
Proof. unfold seedRoot. by destruct (decide _). Qed.

Lemma start_elements id el st :
  m_elements (rectAt id (seedRoot id el st)).2 = m_elements st.
Proof.
  pose proof (rectAt_elements id (seedRoot id el st)) as [-> _].
  by pose proof (seedRoot_elements id el st) as [-> _].
Qed.

Lemma layoutChildren_registry rec el size total cs :
  (∀ e st st', rec e st = Done st' →
     m_elements st' = m_elements st ∧ m_globalID st' = m_globalID st) →
  ∀ pb st st',
    layoutChildren rec el size total cs pb st = Done st' →
    m_elements st' = m_elements st ∧ m_globalID st' = m_globalID st.
Proof.
  intros Hrec. induction cs as [|e cs IH]; intros pb st st' H; simpl in H.
  - by inversion H.
  - destruct (getElement e st) as [c|]; [|done].
    destruct (placeChild el size total e c pb) as [ret pb'].
    destruct (rec e (setRect e ret st)) as [st1| |] eqn:Hr; try done.
    apply Hrec in Hr as [Hr1 Hr2]. apply IH in H as [H1 H2].
    simpl in *. split; congruence.
Qed.

Lemma performContainerLayout_registry fuel :
  ∀ id st st',
    performContainerLayout fuel id st = Done st' →
    m_elements st' = m_elements st ∧ m_globalID st' = m_globalID st.
Proof.
  induction fuel as [|fuel IH]; intros id st st' H; simpl in H; [done|].
  destruct (getElement id st) as [el|]; [|by inversion H].
  pose proof (seedRoot_elements id el st) as Hst1.
  set (st1 := seedRoot id el st) in *.
  destruct (totalProportions st1 (children el)) as [total|]; [|done].
  destruct (children el) as [|c0 cs] eqn:Hcs; [inversion H; by subst|].
  destruct (rectAt id st1) as [pb0 st2] eqn:Hra.
  pose proof (rectAt_elements id st1) as Hst2. rewrite Hra in Hst2. simpl in Hst2.
  destruct (reserveFixed st2 (axis el) (c0 :: cs) pb0) as [pb|]; [|done].
  apply (layoutChildren_registry _ _ _ _ _ IH) in H.
  intuition congruence.
Qed.

(** ** Registration: what [createElement] stores and returns *)

Lemma createElement_inv el st id st' :
  createElement el st = Some (id, st') →
  id = m_globalID st ∧
  m_globalID st' = ((m_globalID st + 1) mod 2 ^ 64)%N ∧
  m_elementLayoutRects st' = m_elementLayoutRects st ∧
  ∃ e', m_elements st' !! id = Some e' ∧
        bounds e' = bounds el ∧ axis e' = axis el ∧
        proportion e' = proportion el ∧ border e' = border el ∧
        spacing e' = spacing el ∧ parent e' = parent el ∧
        children e' = if decide (parent el = id ∧ id ≠ 0%N) then [id] else [].
Proof.
  unfold createElement, addParent. intros H.
  destruct (decide (parent el = 0%N)) as [Hp|Hp]; simpl in H.
  - inversion H; subst; clear H. simpl. split_and!; try done.
    eexists. rewrite lookup_insert_eq. split_and!; try done.
    simpl. rewrite decide_False; [done|]. intros [? ?]. congruence.
  - rewrite lookup_insert_eq in H. simpl in H.
    destruct (decide (parent el = m_globalID st)) as [Hs|Hs].
    + rewrite Hs, lookup_insert_eq in H. simpl in H.
      inversion H; subst; clear H. simpl. split_and!; try done.
      eexists. rewrite lookup_insert_eq. split_and!; try done.
      simpl. rewrite decide_True; [done|]. split; congruence.
    + rewrite !lookup_insert_ne in H by done.
      destruct (m_elements st !! parent el) as [p|]; simpl in H; [|done].
      inversion H; subst; clear H. simpl. split_and!; try done.
      eexists. rewrite lookup_insert_ne, lookup_insert_eq by done.
      split_and!; try done. simpl. rewrite decide_False; [done|]. by intros [? ?].
Qed.

Lemma createAll_ids els : ∀ st ids st',
  createAll els st = Some (ids, st') →
  (m_globalID st + N.of_nat (length els) < 2 ^ 64)%N →
  ids = (λ i, (m_globalID st + N.of_nat i)%N) <$> seq 0 (length els).
Proof.
  induction els as [|el els IH]; intros st ids st' H Hlt; simpl in H.
  - by inversion H.
  - destruct (createElement el st) as [[id st1]|] eqn:Hc; simpl in H; [|done].
    destruct (createAll els st1) as [[ids1 st2]|] eqn:Ha; simpl in H; [|done].
    inversion H; subst; clear H.
    apply createElement_inv in Hc as (-> & Hg & _).
    assert (Hlen : (N.of_nat (length (el :: els)) = N.of_nat (length els) + 1)%N)
      by (simpl length; lia).
    rewrite Hlen in Hlt.
    rewrite N.mod_small in Hg by lia.
    apply IH in Ha; [|rewrite Hg; lia].
    subst ids1. simpl. f_equal; [f_equal; lia|].
    rewrite <- fmap_S_seq, <- list_fmap_compose.
    apply list_fmap_ext. intros i k _. simpl. rewrite Hg. lia.
Qed.

(** ** The loops read the registry only *)

Lemma sumProportions_ext st st' cs : ∀ acc,
  m_elements st = m_elements st' →
  sumProportions st cs acc = sumProportions st' cs acc.
Proof.
  induction cs as [|e cs IH]; intros acc HE; simpl; [done|].
  unfold getElement. rewrite HE. destruct (m_elements st' !! e); simpl; auto.
Qed.

Lemma totalProportions_ext st st' cs :
  m_elements st = m_elements st' →
  totalProportions st cs = totalProportions st' cs.
Proof. intros HE. unfold totalProportions. by rewrite (sumProportions_ext st st'). Qed.

Lemma reserveFixed_ext st st' a cs : ∀ pb,
  m_elements st = m_elements st' →
  reserveFixed st a cs pb = reserveFixed st' a cs pb.
Proof.
  induction cs as [|e cs IH]; intros pb HE; simpl; [done|].
  unfold getElement. rewrite HE. destruct (m_elements st' !! e); simpl; auto.
Qed.

Lemma placeAll_ext st st' el size total cs : ∀ pb,
  m_elements st = m_elements st' →
  placeAll st el size total cs pb = placeAll st' el size total cs pb.
Proof.
  induction cs as [|e cs IH]; intros pb HE; simpl; [done|].
  unfold getElement. rewrite HE. destruct (m_elements st' !! e); simpl; [|done].
  destruct (placeChild _ _ _ _ _ _). f_equal. auto.
Qed.

Lemma childRects_ext st st' el R :
  m_elements st = m_elements st' → childRects st el R = childRects st' el R.
Proof.
  intros HE. unfold childRects.
  rewrite (totalProportions_ext st st'), (reserveFixed_ext st st') by done.
  destruct (totalProportions st' _); simpl; [|done].
  destruct (reserveFixed st' _ _ _); simpl; [|done].
  by rewrite (placeAll_ext st st').
Qed.

(** ** One step of [performContainerLayout], and of its third loop *)

Lemma performContainerLayout_step fuel id st st' :
  performContainerLayout (S fuel) id st = Done st' →
  (getElement id st = None ∧ st' = st) ∨
  ∃ el total,
    getElement id st = Some el ∧
    totalProportions st (children el) = Some total ∧
    ((children el = [] ∧ st' = seedRoot id el st) ∨
     (children el ≠ [] ∧
      ∃ pb, reserveFixed st (axis el) (children el)
              (rectAt id (seedRoot id el st)).1 = Some pb ∧
            layoutChildren (performContainerLayout fuel) el
              (availableMainSize el pb) total (children el) pb
              (rectAt id (seedRoot id el st)).2 = Done st')).
Proof.
  intros H. simpl in H.
  destruct (getElement id st) as [el|] eqn:Hel; [|inversion H; by left].
  right. pose proof (seedRoot_elements id el st) as [HE1 _].
  rewrite (totalProportions_ext _ st) in H by done.
  destruct (totalProportions st (children el)) as [total|] eqn:Htot; [|done].
  exists el, total. split; [done|]. split; [done|].
  destruct (children el) as [|c0 cs] eqn:Hcs; [left; by inversion H|].
  right. split; [done|]. rewrite <- Hcs in *.
  pose proof (rectAt_elements id (seedRoot id el st)) as [HE2 _].
  destruct (rectAt id (seedRoot id el st)) as [pb0 st2]. simpl in *.
  rewrite (reserveFixed_ext _ st) in H by congruence.
  destruct (reserveFixed st (axis el) (children el) pb0) as [pb|]; [|done].
  by exists pb.
Qed.

Lemma layoutChildren_step rec el size total e cs pb st st' :
  layoutChildren rec el size total (e :: cs) pb st = Done st' →
  ∃ c st1,
    getElement e st = Some c ∧
    rec e (setRect e (placeChild el size total e c pb).1 st) = Done st1 ∧
    layoutChildren rec el size total cs (placeChild el size total e c pb).2 st1
      = Done st'.
Proof.
  intros H. simpl in H. destruct (getElement e st) as [c|] eqn:Hc; [|done].
  exists c. destruct (placeChild el size total e c pb) as [ret pb'] eqn:Hp. simpl.
  destruct (rec e (setRect e ret st)) as [st1| |] eqn:Hr; try done.
  by exists st1.
Qed.

(** ** More fuel does not change a finished run *)

Lemma layoutChildren_mono rec1 rec2 el size total cs :
  (∀ e st st', rec1 e st = Done st' → rec2 e st = Done st') →
  ∀ pb st st',
    layoutChildren rec1 el size total cs pb st = Done st' →
    layoutChildren rec2 el size total cs pb st = Done st'.
Proof.
  intros Hrec. induction cs as [|e cs IH]; intros pb st st' H; [done|].
  apply layoutChildren_step in H as (c & st1 & Hc & Hr & H).
  simpl. rewrite Hc. destruct (placeChild el size total e c pb) as [ret pb'].
  simpl in *. rewrite (Hrec _ _ _ Hr). by apply IH.
Qed.

Lemma performContainerLayout_mono fuel : ∀ fuel' id st st',
  (fuel ≤ fuel')%nat →
  performContainerLayout fuel id st = Done st' →
  performContainerLayout fuel' id st = Done st'.
Proof.
  induction fuel as [|fuel IH]; intros fuel' id st st' Hle H; [done|].
  destruct fuel' as [|fuel']; [lia|].
  simpl in *. destruct (getElement id st) as [el|]; [|done].
  destruct (totalProportions _ _) as [total|]; [|done].
  destruct (children el) as [|c0 cs]; [done|].
  destruct (rectAt id _) as [pb0 st2].
  destruct (reserveFixed _ _ _ _) as [pb|]; [|done].
  eapply layoutChildren_mono; [|done].
  intros e s s'. apply IH. lia.
Qed.

(** ** Reads and writes of the rectangle map *)

Lemma setRect_lookup id r st :
  m_elementLayoutRects (setRect id r st) !! id = Some r.
Proof. simpl. apply lookup_insert_eq. Qed.

Lemma setRect_other id r st k :
  k ≠ id →
  m_elementLayoutRects (setRect id r st) !! k = m_elementLayoutRects st !! k.
Proof. intros. simpl. by apply lookup_insert_ne. Qed.

Lemma rectAt_fst id st :
  (rectAt id st).1 = default defaultRect (m_elementLayoutRects st !! id).
Proof. unfold rectAt. by destruct (m_elementLayoutRects st !! id). Qed.

Lemma rectAt_lookup id st :
  m_elementLayoutRects (rectAt id st).2 !! id = Some (rectAt id st).1.
Proof.
  unfold rectAt. destruct (m_elementLayoutRects st !! id) eqn:H; simpl; [done|].
  apply lookup_insert_eq.
Qed.

Lemma rectAt_other id st k :
  k ≠ id →
  m_elementLayoutRects (rectAt id st).2 !! k = m_elementLayoutRects st !! k.
Proof.
  intros. unfold rectAt. destruct (m_elementLayoutRects st !! id); simpl; [done|].
  by apply lookup_insert_ne.
Qed.

Lemma seedRoot_other id el st k :
  k ≠ id →
  m_elementLayoutRects (seedRoot id el st) !! k = m_elementLayoutRects st !! k.
Proof.
  intros. unfold seedRoot. destruct (decide _); [|done]. by apply setRect_other.
Qed.

Lemma seedRoot_root id el st :
  parent el = 0%N →
  m_elementLayoutRects (seedRoot id el st) !! id = Some (bounds el).
Proof. intros. unfold seedRoot. rewrite decide_True by done. apply setRect_lookup. Qed.

Lemma seedRoot_inner id el st : parent el ≠ 0%N → seedRoot id el st = st.
Proof. intros. unfold seedRoot. by rewrite decide_False. Qed.

Lemma entryRect_seed id el st :
  getElement id st = Some el →
  (rectAt id (seedRoot id el st)).1 = entryRect id st.
Proof.
  intros Hel. rewrite rectAt_fst. unfold entryRect. rewrite Hel.
  destruct (decide (parent el = 0%N)).
  - by rewrite seedRoot_root.
  - by rewrite seedRoot_inner.
Qed.

(** ** Frame: a layout of [id] writes below [id] only *)

Section frame.
Variable E : gmap N Element.

Lemma layoutChildren_frame rec el size total cs :
  (∀ e st st', m_elements st = E → rec e st = Done st' →
     m_elements st' = E ∧
     ∀ k, ¬ rtc (is_child E) e k →
          m_elementLayoutRects st' !! k = m_elementLayoutRects st !! k) →
  ∀ pb st st',
    m_elements st = E →
    layoutChildren rec el size total cs pb st = Done st' →
    ∀ k, (∀ c, c ∈ cs → ¬ rtc (is_child E) c k) →
         m_elementLayoutRects st' !! k = m_elementLayoutRects st !! k.
Proof.
  intros Hrec. induction cs as [|e cs IH]; intros pb st st' HE H k Hk.
  - by inversion H.
  - apply layoutChildren_step in H as (c & st1 & Hc & Hr & H).
    apply Hrec in Hr as [HE1 Hr]; [|done].
    rewrite (IH _ _ _ HE1 H k), Hr.
    + apply setRect_other. intros ->. apply (Hk e); [left|done].
    + apply Hk. left.
    + intros c' Hc'. apply Hk. by right.
Qed.

Lemma performContainerLayout_frame fuel : ∀ id st st',
  m_elements st = E →
  performContainerLayout fuel id st = Done st' →
  ∀ k, ¬ rtc (is_child E) id k →
       m_elementLayoutRects st' !! k = m_elementLayoutRects st !! k.
Proof.
  induction fuel as [|fuel IH]; intros id st st' HE H k Hk; [done|].
  assert (k ≠ id) as Hne by (intros ->; by apply Hk).
  apply performContainerLayout_step in H
    as [[_ ->]|(el & total & Hel & _ & [[_ ->]|(Hcs & pb & _ & H)])]; [done|..].
  - by apply seedRoot_other.
  - assert (Hrec : ∀ e s s', m_elements s = E →
      performContainerLayout fuel e s = Done s' →
      m_elements s' = E ∧
      ∀ k, ¬ rtc (is_child E) e k →
           m_elementLayoutRects s' !! k = m_elementLayoutRects s !! k).
    { intros e s s' Hs Hr. split; [|by eapply IH].
      apply performContainerLayout_registry in Hr as [? _]. congruence. }
    pose proof (start_elements id el st) as HE2. rewrite HE in HE2.
    rewrite (layoutChildren_frame _ _ _ _ _ Hrec _ _ _ HE2 H k).
    + rewrite rectAt_other by done. by apply seedRoot_other.
    + intros c Hc Hd. apply Hk. eapply rtc_l; [|exact Hd].
      exists el. split; [|done]. by rewrite <- HE.
Qed.
End frame.

(** ** Unfolding equation of [performContainerLayout] *)

Lemma performContainerLayout_unfold fuel id st :
  performContainerLayout (S fuel) id st =
  match getElement id st with
  | None => Done st
  | Some el =>
      match totalProportions st (children el) with
      | None => NullDeref
      | Some total =>
          if decide (children el = []) then Done (seedRoot id el st)
          else
            match reserveFixed st (axis el) (children el)
                    (rectAt id (seedRoot id el st)).1 with
            | None => NullDeref
            | Some pb =>
                layoutChildren (performContainerLayout fuel) el
                  (availableMainSize el pb) total (children el) pb
                  (rectAt id (seedRoot id el st)).2
            end
      end
  end.
Proof.
  simpl. destruct (getElement id st) as [el|]; [|done].
  pose proof (seedRoot_elements id el st) as [HE1 _].
  rewrite (totalProportions_ext _ st) by done.
  destruct (totalProportions st (children el)) as [total|]; [|done].
  destruct (children el) as [|c0 cs] eqn:Hcs; [done|].
  rewrite decide_False by done. rewrite <- Hcs.
  pose proof (rectAt_elements id (seedRoot id el st)) as [HE2 _].
  destruct (rectAt id (seedRoot id el st)) as [pb0 st2]. simpl in *.
  rewrite (reserveFixed_ext _ st) by congruence. done.
Qed.

(** ** A finished run bounds the depth below its starting point *)

Section depth.
Variable E : gmap N Element.

Lemma layoutChildren_calls rec el size total cs :
  (∀ e st st', rec e st = Done st' → m_elements st' = m_elements st) →
  ∀ pb st st',
    m_elements st = E →
    layoutChildren rec el size total cs pb st = Done st' →
    ∀ c, c ∈ cs → ∃ s s', m_elements s = E ∧ rec c s = Done s'.
Proof.
  intros Hrec. induction cs as [|e cs IH]; intros pb st st' HE H c Hc.
  - by apply elem_of_nil in Hc.
  - apply layoutChildren_step in H as (ce & st1 & Hce & Hr & H).
    apply elem_of_cons in Hc as [->|Hc].
    + eexists _, _. split; [|exact Hr]. done.
    + eapply (IH _ st1 st'); [|done..]. rewrite (Hrec _ _ _ Hr). done.
Qed.

Lemma performContainerLayout_depth fuel : ∀ id st st',
  m_elements st = E →
  performContainerLayout fuel id st = Done st' →
  ∀ m k, nsteps (is_child E) m id k → (m < fuel)%nat.
Proof.
  induction fuel as [|fuel IH]; intros id st st' HE H m k Hm; [done|].
  destruct m as [|m']; [lia|].
  apply (nsteps_add_inv 1 m') in Hm as (c & [el [Hel Hc]]%nsteps_once_inv & Hm').
  rewrite <- HE in Hel.
  apply performContainerLayout_step in H
    as [[Hn _]|(el' & total & Hel' & _ & [[Hnil _]|(_ & pb & _ & H)])].
  - unfold getElement in Hn. congruence.
  - unfold getElement in Hel'. assert (el' = el) as -> by congruence.
    rewrite Hnil in Hc. by apply elem_of_nil in Hc.
  - unfold getElement in Hel'. assert (el' = el) as -> by congruence.
    pose proof (start_elements id el st) as HE2. rewrite HE in HE2.
    destruct (layoutChildren_calls _ _ _ _ _
                (λ e s s' Hr, proj1 (performContainerLayout_registry _ _ _ _ Hr))
                _ _ _ HE2 H c Hc) as (s & s' & Hs & Hr).
    apply (IH _ _ _ Hs Hr) in Hm'. lia.
Qed.

Lemma nsteps_cycle (m j : nat) (a : EID) :
  nsteps (is_child E) m a a → nsteps (is_child E) (j * m) a a.
Proof.
  intros Hm. induction j as [|j IH]; simpl; [constructor|].
  by eapply nsteps_trans.
Qed.

(** A run that finishes has met no cycle. *)
Lemma performContainerLayout_acyclic fuel id st st' :
  m_elements st = E →
  performContainerLayout fuel id st = Done st' →
  ¬ tc (is_child E) id id.
Proof.
  intros HE H [m [Hpos Hm]]%tc_nsteps.
  apply (nsteps_cycle m fuel) in Hm.
  apply (performContainerLayout_depth _ _ _ _ HE H) in Hm. nia.
Qed.
End depth.

(** ** The starting rectangle survives the run *)

Lemma entryRect_ext id st st' :
  m_elements st = m_elements st' →
  default defaultRect (m_elementLayoutRects st !! id)
    = default defaultRect (m_elementLayoutRects st' !! id) →
  entryRect id st = entryRect id st'.
Proof.
  intros HE Hr. unfold entryRect, getElement. rewrite HE.
  destruct (m_elements st' !! id) as [el|]; [|done]. by destruct (decide _).
Qed.

Lemma performContainerLayout_entryRect fuel id st st' :
  performContainerLayout fuel id st = Done st' →
  entryRect id st' = entryRect id st.
Proof.
  intros H. destruct fuel as [|fuel]; [done|].
  pose proof (performContainerLayout_acyclic _ _ _ _ _ eq_refl H) as Hcyc.
  pose proof (performContainerLayout_registry _ _ _ _ H) as [HE _].
  apply performContainerLayout_step in H
    as [[_ ->]|(el & total & Hel & _ & [[_ ->]|(_ & pb & _ & H)])]; [done|..].
  - unfold entryRect, getElement. rewrite (proj1 (seedRoot_elements id el st)).
    unfold getElement in Hel. rewrite Hel.
    destruct (decide (parent el = 0%N)); [done|]. by rewrite seedRoot_inner.
  - unfold entryRect, getElement. rewrite HE.
    unfold getElement in Hel. rewrite Hel.
    destruct (decide (parent el = 0%N)) as [|Hp]; [done|].
    rewrite (layoutChildren_frame (m_elements st) _ _ _ _ _
               (λ e s s' Hs Hr,
                  conj (eq_trans (proj1 (performContainerLayout_registry _ _ _ _ Hr)) Hs)
                       (performContainerLayout_frame _ _ _ _ _ Hs Hr))
               _ _ _ (start_elements id el st) H id).
    + by rewrite rectAt_lookup, rectAt_fst, seedRoot_inner.
    + intros c Hc Hd. apply Hcyc. eapply tc_rtc_r; [|exact Hd].
      apply tc_once. by exists el.
Qed.

(** ** Two runs from the same starting rectangle perform the same stores *)

Lemma same_writes_refl r1 r2 : same_writes r1 r2 r1 r2.
Proof. intros k. by right. Qed.

Lemma same_writes_trans r1 r2 r1' r2' r1'' r2'' :
  same_writes r1 r2 r1' r2' → same_writes r1' r2' r1'' r2'' →
  same_writes r1 r2 r1'' r2''.
Proof.
  intros H1 H2 k. destruct (H2 k) as [?|[-> ->]]; [by left|]. apply H1.
Qed.

Lemma same_writes_insert r1 r2 k v :
  same_writes r1 r2 (<[k := v]> r1) (<[k := v]> r2).
Proof.
  intros j. destruct (decide (j = k)) as [->|].
  - left. by rewrite !lookup_insert_eq.
  - right. by rewrite !lookup_insert_ne.
Qed.

Lemma same_writes_start id el s1 s2 :
  getElement id s1 = Some el → getElement id s2 = Some el →
  entryRect id s1 = entryRect id s2 →
  same_writes (m_elementLayoutRects s1) (m_elementLayoutRects s2)
    (m_elementLayoutRects (rectAt id (seedRoot id el s1)).2)
    (m_elementLayoutRects (rectAt id (seedRoot id el s2)).2).
Proof.
  intros H1 H2 He j. destruct (decide (j = id)) as [->|].
  - left. rewrite !rectAt_lookup, !entryRect_seed by done. by rewrite He.
  - right. by rewrite !rectAt_other, !seedRoot_other.
Qed.

Lemma same_writes_seed id el s1 s2 :
  same_writes (m_elementLayoutRects s1) (m_elementLayoutRects s2)
    (m_elementLayoutRects (seedRoot id el s1))
    (m_elementLayoutRects (seedRoot id el s2)).
Proof.
  unfold seedRoot. destruct (decide _).
  - apply same_writes_insert.
  - apply same_writes_refl.
Qed.

Lemma entryRect_setRect e r s1 s2 :
  m_elements s1 = m_elements s2 →
  entryRect e (setRect e r s1) = entryRect e (setRect e r s2).
Proof.
  intros HE. apply entryRect_ext; [done|]. by rewrite !setRect_lookup.
Qed.

Lemma layoutChildren_same_writes rec el size total cs :
  (∀ e s1 s2 s1', m_elements s1 = m_elements s2 →
     entryRect e s1 = entryRect e s2 → rec e s1 = Done s1' →
     ∃ s2', rec e s2 = Done s2' ∧ m_elements s1' = m_elements s2' ∧
       same_writes (m_elementLayoutRects s1) (m_elementLayoutRects s2)
                   (m_elementLayoutRects s1') (m_elementLayoutRects s2')) →
  ∀ pb s1 s2 s1',
    m_elements s1 = m_elements s2 →
    layoutChildren rec el size total cs pb s1 = Done s1' →
    ∃ s2', layoutChildren rec el size total cs pb s2 = Done s2' ∧
      same_writes (m_elementLayoutRects s1) (m_elementLayoutRects s2)
                  (m_elementLayoutRects s1') (m_elementLayoutRects s2').
Proof.
  intros Hrec. induction cs as [|e cs IH]; intros pb s1 s2 s1' HE H.
  - inversion H; subst. exists s2. split; [done|]. apply same_writes_refl.
  - apply layoutChildren_step in H as (c & t1 & Hc & Hr & H).
    apply (Hrec _ _ (setRect e (placeChild el size total e c pb).1 s2))
      in Hr as (t2 & Hr2 & HEt & Hw1); [|done|by apply entryRect_setRect].
    destruct (IH _ _ _ _ HEt H) as (s2' & H2 & Hw2).
    exists s2'. split.
    + simpl. unfold getElement in *. rewrite <- HE, Hc.
      destruct (placeChild el size total e c pb) as [ret pb']. simpl in *.
      by rewrite Hr2.
    + eapply same_writes_trans; [|exact Hw2].
      eapply same_writes_trans; [|exact Hw1]. apply same_writes_insert.
Qed.

Lemma performContainerLayout_same_writes fuel : ∀ id s1 s2 s1',
  m_elements s1 = m_elements s2 →
  entryRect id s1 = entryRect id s2 →
  performContainerLayout fuel id s1 = Done s1' →
  ∃ s2', performContainerLayout fuel id s2 = Done s2' ∧
    m_elements s1' = m_elements s2' ∧
    same_writes (m_elementLayoutRects s1) (m_elementLayoutRects s2)
                (m_elementLayoutRects s1') (m_elementLayoutRects s2').
Proof.
  induction fuel as [|fuel IH]; intros id s1 s2 s1' HE He H; [done|].
  assert (∀ s2', performContainerLayout (S fuel) id s2 = Done s2' →
                 m_elements s1' = m_elements s2') as Hreg.
  { intros s2' H2. apply performContainerLayout_registry in H as [-> _].
    apply performContainerLayout_registry in H2 as [-> _]. done. }
  rewrite performContainerLayout_unfold in H, Hreg |- *.
  unfold getElement in H, Hreg |- *. rewrite <- HE in Hreg |- *.
  destruct (m_elements s1 !! id) as [el|] eqn:Hel.
  2:{ inversion H; subst. exists s2. split; [done|]. split; [done|].
      apply same_writes_refl. }
  rewrite <- (totalProportions_ext s1 s2) in Hreg |- * by done.
  rewrite <- (reserveFixed_ext s1 s2) in Hreg |- * by done.
  destruct (totalProportions s1 (children el)) as [total|]; [|done].
  destruct (decide (children el = [])).
  { inversion H; subst. eexists. split; [done|]. split; [by apply Hreg|].
    apply same_writes_seed. }
  assert (Hpb : (rectAt id (seedRoot id el s2)).1 = (rectAt id (seedRoot id el s1)).1).
  { rewrite !entryRect_seed; [done|..]; unfold getElement; congruence. }
  rewrite Hpb in *.
  destruct (reserveFixed s1 _ _ _) as [pb|]; [|done].
  eapply (layoutChildren_same_writes _ _ _ _ _ IH) in H as (s2' & H2 & Hw).
  - exists s2'. split; [exact H2|]. split; [by apply Hreg|].
    eapply same_writes_trans; [|exact Hw].
    apply same_writes_start; unfold getElement; congruence.
  - rewrite !start_elements. done.
Qed.

(** C6 rests on this: a second pass repeats the stores of the first. *)
Lemma performContainerLayout_again fuel id st st' :
  performContainerLayout fuel id st = Done st' →
  performContainerLayout fuel id st' = Done st'.
Proof.
  intros H.
  pose proof (performContainerLayout_registry _ _ _ _ H) as [HE HG].
  pose proof (performContainerLayout_entryRect _ _ _ _ H) as He.
  destruct (performContainerLayout_same_writes _ _ _ st' _ (eq_sym HE) (eq_sym He) H)
    as (s2 & H2 & _ & Hw).
  rewrite H2. f_equal.
  pose proof (performContainerLayout_registry _ _ _ _ H2) as [HE2 HG2].
  assert (m_elementLayoutRects s2 = m_elementLayoutRects st') as Hr.
  { apply map_eq. intros k. destruct (Hw k) as [?|[_ ?]]; congruence. }
  destruct s2, st'. simpl in *. congruence.
Qed.

(** ** A root keeps its bounds *)

Section root.
Variables (E : gmap N Element) (r : EID) (elr : Element).
Hypothesis Hr : E !! r = Some elr.
Hypothesis Hroot : parent elr = 0%N.

Lemma rectAt_keeps id st k v :
  m_elementLayoutRects st !! k = Some v →
  m_elementLayoutRects (rectAt id st).2 !! k = Some v.
Proof.
  intros Hk. destruct (decide (k = id)) as [->|].
  - by rewrite rectAt_lookup, rectAt_fst, Hk.
  - by rewrite rectAt_other.
Qed.

Lemma layoutChildren_root rec el size total cs :
  (∀ e s s', m_elements s = E → rec e s = Done s' →
     m_elements s' = E ∧
     (e = r ∨ m_elementLayoutRects s !! r = Some (bounds elr) →
      m_elementLayoutRects s' !! r = Some (bounds elr))) →
  ∀ pb s s',
    m_elements s = E →
    layoutChildren rec el size total cs pb s = Done s' →
    m_elementLayoutRects s !! r = Some (bounds elr) →
    m_elementLayoutRects s' !! r = Some (bounds elr).
Proof.
  intros Hrec. induction cs as [|e cs IH]; intros pb s s' HE H Hs.
  - by inversion H; subst.
  - apply layoutChildren_step in H as (c & s1 & Hc & Hrun & H).
    apply Hrec in Hrun as [HE1 Hrun]; [|done].
    apply (IH _ _ _ HE1 H). apply Hrun.
    destruct (decide (e = r)); [by left|right].
    by rewrite setRect_other.
Qed.

Lemma performContainerLayout_root fuel : ∀ id s s',
  m_elements s = E →
  performContainerLayout fuel id s = Done s' →
  id = r ∨ m_elementLayoutRects s !! r = Some (bounds elr) →
  m_elementLayoutRects s' !! r = Some (bounds elr).
Proof.
  induction fuel as [|fuel IH]; intros id s s' HE H Hid; [done|].
  apply performContainerLayout_step in H
    as [[Hn ->]|(el & total & Hel & _ & H)].
  { destruct Hid as [->|?]; [|done]. unfold getElement in Hn. congruence. }
  assert (m_elementLayoutRects (seedRoot id el s) !! r = Some (bounds elr)) as Hs1.
  { destruct (decide (id = r)) as [->|Hne].
    - unfold getElement in Hel. assert (el = elr) as -> by congruence.
      by apply seedRoot_root.
    - destruct Hid as [?|Hs]; [done|]. by rewrite seedRoot_other. }
  destruct H as [[_ ->]|(_ & pb & _ & H)]; [done|].
  eapply layoutChildren_root; [|rewrite start_elements; exact HE|exact H|].
  - intros e t t' Ht Hrun. split; [|by eapply IH].
    apply performContainerLayout_registry in Hrun as [? _]. congruence.
  - by apply rectAt_keeps.
Qed.
End root.

(** ** Children that are all registered *)

Lemma sumProportions_Some st cs : ∀ acc,
  is_Some (sumProportions st cs acc) ↔ ∀ e, e ∈ cs → is_Some (getElement e st).
Proof.
  induction cs as [|e cs IH]; intros acc; simpl.
  - split; [|by eauto]. intros _ e He. by apply elem_of_nil in He.
  - destruct (getElement e st) as [c|] eqn:Hc; simpl.
    + rewrite IH. split.
      * intros H e' [->|He']%elem_of_cons; [by rewrite Hc|auto].
      * intros H e' He'. apply H. by right.
    + split; [by intros [? ?]|]. intros H.
      destruct (H e) as [? ?]; [left|]. congruence.
Qed.

Lemma totalProportions_Some st cs :
  is_Some (totalProportions st cs) ↔ ∀ e, e ∈ cs → is_Some (getElement e st).
Proof.
  unfold totalProportions. rewrite fmap_is_Some. apply sumProportions_Some.
Qed.

Lemma reserveFixed_Some st a cs : ∀ pb,
  (∀ e, e ∈ cs → is_Some (getElement e st)) → is_Some (reserveFixed st a cs pb).
Proof.
  induction cs as [|e cs IH]; intros pb H; simpl; [by eauto|].
  destruct (H e) as [c Hc]; [left|]. rewrite Hc. simpl.
  apply IH. intros e' He'. apply H. by right.
Qed.

Lemma placeAll_fst st el size total cs : ∀ pb,
  (∀ e, e ∈ cs → is_Some (getElement e st)) →
  (placeAll st el size total cs pb).*1 = cs.
Proof.
  induction cs as [|e cs IH]; intros pb H; simpl; [done|].
  destruct (H e) as [c Hc]; [left|]. rewrite Hc.
  destruct (placeChild el size total e c pb) as [ret pb']. simpl. f_equal.
  apply IH. intros e' He'. apply H. by right.
Qed.

Lemma childRects_fst st el R rs :
  childRects st el R = Some rs → rs.*1 = children el.
Proof.
  unfold childRects. intros H.
  destruct (totalProportions st (children el)) as [total|] eqn:Ht; [|done].
  simpl in H. destruct (reserveFixed _ _ _ _) as [pb|]; [|done].
  simpl in H. inversion H; subst. apply placeAll_fst.
  apply totalProportions_Some. by rewrite Ht.
Qed.

(** ** A child keeps the rectangle its container stored *)

Lemma performContainerLayout_own fuel id st st' el :
  performContainerLayout fuel id st = Done st' →
  getElement id st = Some el → parent el ≠ 0%N →
  is_Some (m_elementLayoutRects st !! id) →
  m_elementLayoutRects st' !! id = m_elementLayoutRects st !! id.
Proof.
  intros H Hel Hp [R HR]. destruct fuel as [|fuel]; [done|].
  pose proof (performContainerLayout_acyclic _ _ _ _ _ eq_refl H) as Hcyc.
  apply performContainerLayout_step in H
    as [[_ ->]|(el' & total & Hel' & _ & H)]; [done|].
  assert (el' = el) as -> by congruence.
  rewrite seedRoot_inner in H by done.
  destruct H as [[_ ->]|(_ & pb & _ & H)]; [done|].
  assert ((rectAt id st).2 = st) as Hst by (unfold rectAt; by rewrite HR).
  rewrite Hst in H.
  apply (layoutChildren_frame (m_elements st) _ _ _ _ _
           (λ e s s' Hs Hr,
              conj (eq_trans (proj1 (performContainerLayout_registry _ _ _ _ Hr)) Hs)
                   (performContainerLayout_frame _ _ _ _ _ Hs Hr))
           _ _ _ eq_refl H id).
  intros c Hc Hd. apply Hcyc. eapply tc_rtc_r; [|exact Hd].
  apply tc_once. by exists el.
Qed.

(** ** Well-formed trees *)

Section tree.
Variable st0 : Flexer.
Hypothesis Hwf : wf_tree st0.

Lemma wf_child p c :
  is_child (m_elements st0) p c →
  (0 < p < c)%N ∧ (c < m_globalID st0)%N ∧
  ∃ ec, m_elements st0 !! c = Some ec ∧ parent ec = p.
Proof.
  intros (el & Hel & Hc). destruct Hwf as [_ Hall].
  destruct (Hall p el Hel) as ([Hp _] & _ & Hch).
  rewrite Forall_forall in Hch. destruct (Hch c Hc) as [Hlt Hpar].
  destruct (m_elements st0 !! c) as [ec|] eqn:Hec; [|done].
  destruct (Hall c ec Hec) as ([_ ?] & _). simpl in Hpar.
  split; [lia|]. split; [done|]. exists ec. split; congruence.
Qed.

Lemma wf_NoDup id el : m_elements st0 !! id = Some el → NoDup (children el).
Proof. intros Hel. destruct Hwf as [_ Hall]. by destruct (Hall id el Hel) as (_ & ? & _). Qed.

Lemma wf_desc_le a b : rtc (is_child (m_elements st0)) a b → (a ≤ b)%N.
Proof.
  induction 1 as [|a c b Hac _ IH]; [lia|].
  apply wf_child in Hac as ([_ ?] & _). lia.
Qed.

Lemma wf_parent_unique p q c :
  is_child (m_elements st0) p c → is_child (m_elements st0) q c → p = q.
Proof.
  intros (_ & _ & e1 & H1 & <-)%wf_child (_ & _ & e2 & H2 & <-)%wf_child.
  congruence.
Qed.

Lemma wf_not_above p c :
  is_child (m_elements st0) p c → ¬ rtc (is_child (m_elements st0)) c p.
Proof.
  intros Hc Hd. apply wf_desc_le in Hd. apply wf_child in Hc as ([_ ?] & _). lia.
Qed.

(** Distinct children of one container head disjoint subtrees. *)
Lemma wf_disjoint p c1 c2 k :
  is_child (m_elements st0) p c1 → is_child (m_elements st0) p c2 → c1 ≠ c2 →
  rtc (is_child (m_elements st0)) c1 k → rtc (is_child (m_elements st0)) c2 k →
  False.
Proof.
  intros H1 H2 Hne Hd1. revert k Hd1.
  apply (rtc_ind_r (λ k, rtc (is_child (m_elements st0)) c2 k → False)).
  - intros [->|(q & Hq & Hqc)]%rtc_inv_r; [done|].
    rewrite (wf_parent_unique _ _ _ Hqc H1) in Hq. by apply (wf_not_above p c2).
  - intros q k Hd1 Hqk IH [->|(q' & Hq' & Hq'k)]%rtc_inv_r.
    + rewrite (wf_parent_unique _ _ _ Hqk H2) in Hd1. by apply (wf_not_above p c1).
    + rewrite (wf_parent_unique _ _ _ Hq'k Hqk) in Hq'. by apply IH.
Qed.

Lemma wf_children_registered id el :
  m_elements st0 !! id = Some el →
  ∀ e, e ∈ children el → is_Some (getElement e st0).
Proof.
  intros Hel e He.
  destruct (wf_child id e) as (_ & _ & ec & Hec & _); [by exists el|].
  by exists ec.
Qed.

Lemma laid_out_frame r r' d :
  (∀ k, rtc (is_child (m_elements st0)) d k → r' !! k = r !! k) →
  laid_out st0 r d → laid_out st0 r' d.
Proof.
  intros Hfr Hlo el Hel Hne.
  destruct (Hlo el Hel Hne) as (R & rs & HR & Hrs & Hch).
  exists R, rs. split; [by rewrite Hfr|]. split; [done|].
  intros c rc Hc. rewrite Hfr; [by apply Hch|].
  apply rtc_once. exists el. split; [done|].
  rewrite <- (childRects_fst _ _ _ _ Hrs).
  apply (list_elem_of_fmap_2 fst) in Hc. done.
Qed.
End tree.

(** ** On a well-formed tree the final map solves the layout equations *)

Section lift.
Variable st0 : Flexer.
Hypothesis Hwf : wf_tree st0.

Lemma layoutChildren_lift fuel id el size total :
  (∀ e s s', m_elements s = m_elements st0 →
     performContainerLayout fuel e s = Done s' →
     ∀ d, rtc (is_child (m_elements st0)) e d →
          laid_out st0 (m_elementLayoutRects s') d) →
  m_elements st0 !! id = Some el →
  ∀ cs pb s s',
    (∀ c, c ∈ cs → c ∈ children el) → NoDup cs →
    m_elements s = m_elements st0 →
    layoutChildren (performContainerLayout fuel) el size total cs pb s = Done s' →
    (∀ c rc, (c, rc) ∈ placeAll st0 el size total cs pb →
             m_elementLayoutRects s' !! c = Some rc) ∧
    (∀ c d, c ∈ cs → rtc (is_child (m_elements st0)) c d →
            laid_out st0 (m_elementLayoutRects s') d).
Proof.
  intros IHf Hel. induction cs as [|e cs IH]; intros pb s s' Hsub Hnd HE H.
  { split; [intros c rc Hc|intros c d Hc]; by apply elem_of_nil in Hc. }
  apply layoutChildren_step in H as (c & s1 & Hc & Hrun & H).
  apply NoDup_cons in Hnd as [Hne Hnd].
  pose proof (performContainerLayout_registry _ _ _ _ Hrun) as [HE1 _].
  simpl in HE1. rewrite HE in HE1.
  assert (Hchild : ∀ c', c' ∈ e :: cs → is_child (m_elements st0) id c').
  { intros c' Hc'. exists el. split; [done|]. by apply Hsub. }
  destruct (IH _ _ _ (λ c' Hc', Hsub c' (list_elem_of_further _ _ _ Hc')) Hnd HE1 H)
    as [IHa IHb].
  assert (Htail : ∀ k, rtc (is_child (m_elements st0)) e k →
            m_elementLayoutRects s' !! k = m_elementLayoutRects s1 !! k).
  { intros k Hk.
    apply (layoutChildren_frame (m_elements st0) _ _ _ _ _
             (λ e s s' Hs Hr,
                conj (eq_trans (proj1 (performContainerLayout_registry _ _ _ _ Hr)) Hs)
                     (performContainerLayout_frame _ _ _ _ _ Hs Hr))
             _ _ _ HE1 H k).
    intros c' Hc' Hd. apply (wf_disjoint st0 Hwf id e c' k); auto.
    - apply Hchild. left.
    - apply Hchild. by right.
    - intros ->. done. }
  assert (Hc0 : getElement e st0 = Some c).
  { unfold getElement in *. congruence. }
  split.
  - intros c' rc. simpl. rewrite Hc0.
    destruct (placeChild el size total e c pb) as [ret pb'] eqn:Hp. simpl in *.
    intros [[= -> ->]|Hin]%elem_of_cons; [|by apply IHa].
    rewrite Htail by done.
    erewrite performContainerLayout_own; [apply setRect_lookup|exact Hrun|..].
    + unfold getElement in *. simpl. exact Hc.
    + destruct (wf_child st0 Hwf id e) as ([? _] & _ & ec & Hec & Hpar).
      { apply Hchild. left. }
      unfold getElement in Hc0. assert (ec = c) as -> by congruence. lia.
    + rewrite setRect_lookup. eauto.
  - intros c' d [->|Hc']%elem_of_cons Hd; [|by eapply IHb].
    eapply laid_out_frame; [|eapply IHf; [|exact Hrun|exact Hd]].
    + intros k Hk. apply Htail. by etrans.
    + simpl. congruence.
Qed.

Lemma performContainerLayout_lift fuel : ∀ id s s',
  m_elements s = m_elements st0 →
  performContainerLayout fuel id s = Done s' →
  ∀ d, rtc (is_child (m_elements st0)) id d →
       laid_out st0 (m_elementLayoutRects s') d.
Proof.
  induction fuel as [|fuel IH]; intros id s s' HE H d Hd; [done|].
  apply performContainerLayout_step in H
    as [[Hn ->]|(el & total & Hel & Htot & H)].
  { apply rtc_inv in Hd as [<-|(y & (el & Hel & _) & _)].
    - intros el Hel. unfold getElement in *. congruence.
    - unfold getElement in *. congruence. }
  assert (Hel0 : m_elements st0 !! id = Some el).
  { unfold getElement in Hel. congruence. }
  destruct H as [[Hnil ->]|(Hne & pb & Hpb & H)].
  { apply rtc_inv in Hd as [<-|(y & (el' & Hel' & Hy) & _)].
    - intros el' Hel'. unfold getElement in *. congruence.
    - assert (el' = el) as -> by congruence. rewrite Hnil in Hy.
      by apply elem_of_nil in Hy. }
  pose proof (start_elements id el s) as HE2. rewrite HE in HE2.
  destruct (layoutChildren_lift fuel id el _ _ IH Hel0 _ _ _ _
              (λ c Hc, Hc) (wf_NoDup st0 Hwf id el Hel0) HE2 H) as [Ha Hb].
  apply rtc_inv in Hd as [<-|(y & (el' & Hel' & Hy) & Hd)].
  - intros el' Hel' _. unfold getElement in Hel'.
    assert (el' = el) as -> by congruence.
    exists (rectAt id (seedRoot id el s)).1. eexists. split; [|split; [|exact Ha]].
    + rewrite <- (rectAt_lookup id (seedRoot id el s)).
      apply (layoutChildren_frame (m_elements st0) _ _ _ _ _
               (λ e s s' Hs Hr,
                  conj (eq_trans (proj1 (performContainerLayout_registry _ _ _ _ Hr)) Hs)
                       (performContainerLayout_frame _ _ _ _ _ Hs Hr))
               _ _ _ HE2 H id).
      intros c Hc. apply (wf_not_above st0 Hwf). by exists el.
    + unfold childRects.
      rewrite (totalProportions_ext st0 s), (reserveFixed_ext st0 s) by done.
      rewrite Htot. simpl. rewrite Hpb. done.
  - assert (el' = el) as -> by congruence. by eapply Hb.
Qed.
End lift.

(** ** On a well-formed tree the pass finishes *)

Section total.
Variable st0 : Flexer.
Hypothesis Hwf : wf_tree st0.

Lemma layoutChildren_total rec el size total cs :
  (∀ e, e ∈ cs →
     is_Some (m_elements st0 !! e) ∧
     ∀ s, m_elements s = m_elements st0 →
          ∃ s', rec e s = Done s' ∧ m_elements s' = m_elements st0) →
  ∀ pb s, m_elements s = m_elements st0 →
          ∃ s', layoutChildren rec el size total cs pb s = Done s'.
Proof.
  induction cs as [|e cs IH]; intros Hrec pb s HE; simpl; [by eauto|].
  destruct (Hrec e) as [[c Hc] Hrun]; [left|].
  unfold getElement. rewrite HE, Hc.
  destruct (placeChild el size total e c pb) as [ret pb'].
  destruct (Hrun (setRect e ret s)) as (s1 & -> & HE1); [done|].
  apply IH; [|done]. intros e' He'. apply Hrec. by right.
Qed.

Lemma performContainerLayout_total fuel : ∀ id s,
  m_elements s = m_elements st0 →
  (N.to_nat (m_globalID st0) - N.to_nat id < fuel)%nat →
  ∃ s', performContainerLayout fuel id s = Done s'.
Proof.
  induction fuel as [|fuel IH]; intros id s HE Hfuel; [lia|].
  rewrite performContainerLayout_unfold. unfold getElement. rewrite HE.
  destruct (m_elements st0 !! id) as [el|] eqn:Hel; [|by eauto].
  pose proof (wf_children_registered st0 Hwf id el Hel) as Hreg.
  destruct (proj2 (totalProportions_Some st0 (children el)) Hreg) as [total Ht].
  rewrite (totalProportions_ext s st0), Ht by done.
  destruct (decide (children el = [])); [by eauto|].
  destruct (reserveFixed_Some st0 (axis el) (children el)
              (rectAt id (seedRoot id el s)).1 Hreg) as [pb Hpb].
  rewrite (reserveFixed_ext s st0), Hpb by done.
  apply layoutChildren_total; [|by rewrite start_elements].
  intros e He. split; [by apply Hreg|]. intros t Ht'.
  destruct (wf_child st0 Hwf id e) as ([_ Hlt] & HG & _); [by exists el|].
  destruct (IH e t Ht') as [t' Hrun]; [lia|].
  exists t'. split; [done|].
  apply performContainerLayout_registry in Hrun as [-> _]. done.
Qed.
End total.

(** ** Registration keeps the tree well formed *)

Lemma wf_tree_newFlexer : wf_tree newFlexer.
Proof. split; [done|]. apply map_Forall_empty. Qed.

Lemma createElement_wf el st id st' :
  wf_tree st →
  createElement el st = Some (id, st') →
  parent el ≠ id →
  (m_globalID st + 1 < 2 ^ 64)%N →
  wf_tree st'.
Proof.
  intros [HG Hall] H Hself Hmax.
  pose proof (createElement_inv _ _ _ _ H) as (-> & _).
  unfold createElement, addParent in H.
  assert (Hfresh : m_elements st !! m_globalID st = None).
  { destruct (m_elements st !! m_globalID st) as [e0|] eqn:He0; [|done].
    destruct (Hall _ _ He0) as ([_ ?] & _). lia. }
  assert (Hkeep : ∀ k e0, m_elements st !! k = Some e0 →
            (0 < k < m_globalID st + 1)%N ∧ NoDup (children e0) ∧
            Forall (λ c, (k < c)%N ∧ (c < m_globalID st)%N ∧
                         parent <$> (m_elements st !! c) = Some k) (children e0)).
  { intros k e0 He0. destruct (Hall _ _ He0) as (? & ? & Hch).
    split; [lia|]. split; [done|].
    rewrite Forall_forall in Hch |- *. intros c Hc.
    destruct (Hch c Hc) as [? Hpar]. split; [done|]. split; [|done].
    destruct (m_elements st !! c) as [ec|] eqn:Hec; [|done].
    destruct (Hall _ _ Hec) as ([_ ?] & _). done. }
  rewrite N.mod_small in H by lia.
  destruct (decide (parent el = 0%N)) as [Hp|Hp]; simpl in H.
  - inversion H; subst; clear H. split; [simpl; lia|]. simpl.
    apply map_Forall_insert; [done|]. split.
    { simpl. split; [lia|]. split; [constructor|constructor]. }
    intros k e0 He0. destruct (Hkeep k e0 He0) as (? & ? & Hch).
    split; [done|]. split; [done|].
    eapply Forall_impl; [exact Hch|]. simpl. intros c (? & ? & Hpar).
    split; [done|]. rewrite lookup_insert_ne by lia. done.
  - rewrite lookup_insert_eq in H. simpl in H.
    rewrite !lookup_insert_ne in H by done.
    destruct (m_elements st !! parent el) as [p|] eqn:Hpar; simpl in H; [|done].
    inversion H; subst; clear H. split; [simpl; lia|]. simpl.
    rewrite insert_insert_eq.
    destruct (Hkeep _ _ Hpar) as (Hpr & Hnd & Hch).
    assert (parent el ≠ m_globalID st) as Hne by done.
    intros k e0. rewrite lookup_insert.
    destruct (decide (parent el = k)) as [<-|Hk].
    + intros [= <-]. simpl. split; [done|]. split.
      * apply NoDup_app. split; [done|]. split; [|apply NoDup_singleton].
        intros c Hc ->%list_elem_of_singleton.
        rewrite Forall_forall in Hch. destruct (Hch _ Hc) as (_ & ? & _). lia.
      * apply Forall_app. split.
        -- eapply Forall_impl; [exact Hch|]. simpl. intros c (? & ? & Hpc).
           split; [done|]. rewrite !lookup_insert_ne by lia. done.
        -- constructor; [|constructor]. split; [lia|].
           rewrite lookup_insert_ne by done. by rewrite lookup_insert_eq.
    + rewrite lookup_insert.
      destruct (decide (m_globalID st = k)) as [<-|Hk'].
      * intros [= <-]. simpl. split; [lia|]. split; constructor.
      * intros He0. destruct (Hkeep k e0 He0) as (? & ? & Hch0).
        split; [done|]. split; [done|].
        eapply Forall_impl; [exact Hch0|]. simpl. intros c (? & ? & Hpc).
        split; [done|]. rewrite lookup_insert.
        destruct (decide (parent el = c)) as [<-|Hc].
        -- rewrite Hpar in Hpc. simpl in *. done.
        -- rewrite !lookup_insert_ne by lia. done.
Qed.

(** ** One container: cross axis, reserved space, divisor *)

Lemma placeChild_cross el size total e c pb :
  crossSize (axis el) (placeChild el size total e c pb).1
    = to_int (crossSize (axis el) pb - Z.of_N (border el) * 2) ∧
  crossSize (axis el) (placeChild el size total e c pb).2 = crossSize (axis el) pb.
Proof. unfold placeChild. by destruct (axis el). Qed.

Lemma placeAll_cross st el size total cs : ∀ pb c rc,
  (c, rc) ∈ placeAll st el size total cs pb →
  crossSize (axis el) rc = to_int (crossSize (axis el) pb - Z.of_N (border el) * 2).
Proof.
  induction cs as [|e cs IH]; intros pb c rc Hin; simpl in Hin.
  { by apply elem_of_nil in Hin. }
  destruct (getElement e st) as [ce|]; [|by apply elem_of_nil in Hin].
  pose proof (placeChild_cross el size total e ce pb) as [H1 H2].
  destruct (placeChild el size total e ce pb) as [ret pb']. simpl in *.
  apply elem_of_cons in Hin as [[= -> ->]|Hin]; [done|].
  rewrite <- H2. by eapply IH.
Qed.

Lemma shrinkMain_spec a pb size :
  mainSize a (shrinkMain a pb size) = to_int (mainSize a pb - size) ∧
  crossSize a (shrinkMain a pb size) = crossSize a pb ∧
  x (shrinkMain a pb size) = x pb ∧ y (shrinkMain a pb size) = y pb.
Proof. by destruct a. Qed.

Lemma reserveFixed_spec st a cs : ∀ pb pb',
  reserveFixed st a cs pb = Some pb' →
  (mainSize a pb' - (mainSize a pb - fixedTotal st a cs)) mod 2 ^ 32 = 0 ∧
  crossSize a pb' = crossSize a pb ∧ x pb' = x pb ∧ y pb' = y pb.
Proof.
  induction cs as [|e cs IH]; intros pb pb' H; simpl in *.
  { inversion H; subst. split; [|done].
    replace (_ - _) with 0 by lia. done. }
  destruct (getElement e st) as [c|]; [|done]. simpl in H.
  apply IH in H as (Hm & Hc & Hx & Hy).
  destruct (decide (proportion c = 0%N)).
  - destruct (shrinkMain_spec a pb (mainSize a (bounds c))) as (Hs & -> & -> & ->)
      in Hm, Hc, Hx, Hy.
    split; [|done]. rewrite Hs in Hm.
    pose proof (to_int_diff (mainSize a pb - mainSize a (bounds c))) as Hd.
    replace (mainSize a pb' - (mainSize a pb - (mainSize a (bounds c) + fixedTotal st a cs)))
      with ((mainSize a pb' - (to_int (mainSize a pb - mainSize a (bounds c)) - fixedTotal st a cs))
            + (to_int (mainSize a pb - mainSize a (bounds c))
               - (mainSize a pb - mainSize a (bounds c)))) by lia.
    by rewrite Z.add_mod, Hm, Hd by lia.
  - split; [|done]. by rewrite Z.add_0_l.
Qed.

Lemma availableMainSize_spec st el R pb :
  reserveFixed st (axis el) (children el) R = Some pb →
  availableMainSize el pb
    = to_int (mainSize (axis el) R - fixedTotal st (axis el) (children el)
              - Z.of_N (border el) * 2).
Proof.
  intros (Hm & _)%reserveFixed_spec. unfold availableMainSize.
  apply to_int_eqm.
  replace (_ - _) with (mainSize (axis el) pb
    - (mainSize (axis el) R - fixedTotal st (axis el) (children el))) by lia.
  done.
Qed.

Lemma normalise_pos tp : 1 <= normalise tp.
Proof. unfold normalise. destruct (Z.leb_spec tp 0); lia. Qed.


Lemma sumProportions_spec st cs : ∀ acc v,
  sumProportions st cs acc = Some v →
  (v - (acc + proportionTotal st cs)) mod 2 ^ 32 = 0 ∧ (cs ≠ [] → in_int v).
Proof.
  induction cs as [|e cs IH]; intros acc v H; simpl in *.
  { inversion H; subst. split; [|done]. replace (_ - _) with 0 by lia. done. }
  destruct (getElement e st) as [c|]; [|done]. simpl in H.
  pose proof H as H'. apply IH in H as [Hm Hr]. split.
  - pose proof (to_int_diff (acc + Z.of_N (proportion c))) as Hd.
    replace (v - (acc + (Z.of_N (proportion c) + proportionTotal st cs)))
      with ((v - (to_int (acc + Z.of_N (proportion c)) + proportionTotal st cs))
            + (to_int (acc + Z.of_N (proportion c)) - (acc + Z.of_N (proportion c))))
      by lia.
    by rewrite Z.add_mod, Hm, Hd by lia.
  - intros _. destruct cs as [|e' cs']; [|by apply Hr].
    simpl in H'. inversion H'; subst. apply to_int_in_int.
Qed.


(** ** One container: positions along the main axis *)

Lemma to_int_absorb a b c : to_int (a + to_int b + c) = to_int (a + b + c).
Proof.
  apply to_int_eqm. replace (_ - _) with (to_int b - b) by lia. apply to_int_diff.
Qed.

Lemma placeChild_main el size total e c pb :
  mainPos (axis el) (placeChild el size total e c pb).1
    = to_int (mainPos (axis el) (bounds c)
              + (mainPos (axis el) pb + Z.of_N (border el))) ∧
  mainPos (axis el) (placeChild el size total e c pb).2
    = to_int (mainPos (axis el) pb + childWidth el size total c).
Proof. unfold placeChild, childWidth. by destruct (axis el). Qed.

Lemma placeAll_positions st el size total cs : ∀ pb i ci ri,
  placeAll st el size total cs pb !! i = Some (ci, ri) →
  ∃ c, cs !! i = Some ci ∧ getElement ci st = Some c ∧
       mainPos (axis el) ri
         = to_int (mainPos (axis el) (bounds c) + mainPos (axis el) pb
                   + Z.of_N (border el) + sumZ (take i (widths st el size total cs))).
Proof.
  induction cs as [|e cs IH]; intros pb i ci ri Hi; simpl in Hi; [done|].
  destruct (getElement e st) as [c|] eqn:Hc; [|done].
  pose proof (placeChild_main el size total e c pb) as [Hpos Hcur].
  destruct (placeChild el size total e c pb) as [ret pb']. simpl in *.
  destruct i as [|i]; simpl in Hi.
  - inversion Hi; subst. exists c. split; [done|]. split; [done|].
    rewrite Hpos. simpl. f_equal. lia.
  - apply IH in Hi as (c' & Hl & Hc' & ->). exists c'.
    split; [done|]. split; [done|].
    rewrite Hcur. simpl. rewrite Hc.
    apply to_int_eqm.
    replace (_ - _) with (to_int (mainPos (axis el) pb + childWidth el size total c)
                          - (mainPos (axis el) pb + childWidth el size total c)).
    + apply to_int_diff.
    + unfold widths, sumZ. simpl. lia.
Qed.

Lemma childWidth_exact el size total c :
  0 <= size <= INT_MAX → 1 <= total →
  (Z.of_N (proportion c) <= total) →
  childWidth el size total c
    = if decide (proportion c = 0%N) then mainSize (axis el) (bounds c)
      else Z.quot size total * Z.of_N (proportion c).
Proof.
  intros Hsize Htot Hp. unfold childWidth.
  destruct (decide (proportion c = 0%N)) as [->|Hne]; [done|].
  rewrite decide_True by lia. rewrite Z.sub_0_r.
  assert (Hq : 0 <= Z.quot size total * total <= size).
  { rewrite Z.quot_div_nonneg by lia. split; [|rewrite Z.mul_comm; apply Z.mul_div_le; lia].
    apply Z.mul_nonneg_nonneg; [apply Z.div_pos|]; lia. }
  assert (0 <= Z.quot size total) by (rewrite Z.quot_div_nonneg by lia; apply Z.div_pos; lia).
  rewrite (to_int_id size) by (unfold in_int, INT_MIN, INT_MAX in *; lia).
  apply to_int_id. unfold in_int, INT_MIN, INT_MAX in *. nia.
Qed.

Lemma proportionTotal_nonneg st cs : 0 <= proportionTotal st cs.
Proof.
  induction cs as [|e cs IH]; simpl; [lia|]. destruct (getElement e st); lia.
Qed.

Lemma proportionTotal_bound st cs e c :
  e ∈ cs → (∀ e', e' ∈ cs → is_Some (getElement e' st)) →
  getElement e st = Some c →
  Z.of_N (proportion c) <= proportionTotal st cs.
Proof.
  induction cs as [|e0 cs IH]; intros He Hreg Hc; [by apply elem_of_nil in He|].
  simpl. destruct (Hreg e0) as [c0 Hc0]; [left|]. rewrite Hc0.
  pose proof (proportionTotal_nonneg st cs).
  apply elem_of_cons in He as [->|He].
  - assert (c0 = c) as -> by congruence. lia.
  - assert (Z.of_N (proportion c) <= proportionTotal st cs); [|lia].
    apply IH; [done| |done]. intros e' He'. apply Hreg. by right.
Qed.

Section widths.
Variables (st : Flexer) (el : Element) (size total : Z).
Hypothesis Hsize : 0 <= size <= INT_MAX.
Hypothesis Htotal : 1 <= total.

Lemma widths_sum cs :
  (∀ e, e ∈ cs → is_Some (getElement e st)) →
  (∀ e c, e ∈ cs → getElement e st = Some c → Z.of_N (proportion c) <= total) →
  sumZ (widths st el size total cs)
    = fixedTotal st (axis el) cs + Z.quot size total * proportionTotal st cs.
Proof.
  induction cs as [|e cs IH]; intros Hreg Hp; simpl; [lia|].
  destruct (Hreg e) as [c Hc]; [left|]. rewrite Hc.
  fold (widths st el size total cs). fold (sumZ (widths st el size total cs)).
  rewrite IH.
  - rewrite childWidth_exact; [|done|done|by apply (Hp e); [left|]].
    destruct (decide (proportion c = 0%N)) as [->|]; lia.
  - intros e' He'. apply Hreg. by right.
  - intros e' c' He'. apply Hp. by right.
Qed.

Lemma widths_nonneg cs :
  (∀ e c, e ∈ cs → getElement e st = Some c → Z.of_N (proportion c) <= total) →
  (∀ e c, e ∈ cs → getElement e st = Some c → proportion c = 0%N →
          0 <= mainSize (axis el) (bounds c)) →
  Forall (λ w, 0 <= w) (widths st el size total cs).
Proof.
  intros Hp Hfix. unfold widths. apply Forall_fmap, Forall_forall.
  intros e He. simpl. destruct (getElement e st) as [c|] eqn:Hc; [|lia].
  rewrite childWidth_exact; [|done|done|by apply (Hp e)].
  destruct (decide (proportion c = 0%N)); [by apply (Hfix e)|].
  apply Z.mul_nonneg_nonneg; [|lia].
  rewrite Z.quot_div_nonneg by lia. apply Z.div_pos; lia.
Qed.
End widths.

Lemma sumZ_take_mono (l : list Z) i j :
  Forall (λ w, 0 <= w) l → (i ≤ j)%nat →
  0 <= sumZ (take i l) <= sumZ (take j l) ∧ sumZ (take j l) <= sumZ l.
Proof.
  intros Hl. revert i j. induction Hl as [|w l Hw Hl IH]; intros i j Hij.
  { rewrite !take_nil. simpl. lia. }
  unfold sumZ in *.
  destruct i as [|i], j as [|j]; try lia; simpl.
  - specialize (IH 0%nat 0%nat (le_n _)). simpl in IH. lia.
  - specialize (IH 0%nat j ltac:(lia)). simpl in IH. lia.
  - specialize (IH i j ltac:(lia)). lia.
Qed.

Lemma normalise_ge tp : tp <= normalise tp.
Proof. unfold normalise. destruct (Z.leb_spec tp 0); lia. Qed.

Lemma fixedTotal_nonneg st a cs :
  (∀ e c, e ∈ cs → getElement e st = Some c → proportion c = 0%N →
          0 <= mainSize a (bounds c)) →
  0 <= fixedTotal st a cs.
Proof.
  induction cs as [|e cs IH]; intros Hfix; simpl; [lia|].
  destruct (getElement e st) as [c|] eqn:Hc; [|lia].
  assert (0 <= fixedTotal st a cs).
  { apply IH. intros e' c' He'. apply Hfix. by right. }
  destruct (decide (proportion c = 0%N)); [|lia].
  assert (0 <= mainSize a (bounds c)); [|lia]. apply (Hfix e); [left|done..].
Qed.

(** Within the range described by [orderly], the children of one
    container are placed at non-decreasing main-axis positions. *)
Lemma childRects_ordered st el R rs :
  childRects st el R = Some rs → orderly st el R →
  ∀ i j ci cj ri rj, (i ≤ j)%nat →
    rs !! i = Some (ci, ri) → rs !! j = Some (cj, rj) →
    mainPos (axis el) ri <= mainPos (axis el) rj.
Proof.
  unfold childRects, totalProportions.
  intros H (Hmax & Hfit & Hprop & Hfix & Hoff & Hrange) i j ci cj ri rj Hij Hi Hj.
  destruct (sumProportions st (children el) 0) as [v|] eqn:Hv; [|done].
  simpl in H. destruct (reserveFixed st _ _ R) as [pb|] eqn:Hpb; [|done].
  simpl in H. inversion H; subst rs; clear H.
  assert (Hreg : ∀ e, e ∈ children el → is_Some (getElement e st)).
  { apply sumProportions_Some with (acc := 0). by rewrite Hv. }
  pose proof (availableMainSize_spec _ _ _ _ Hpb) as Hsize.
  pose proof (fixedTotal_nonneg _ _ _ Hfix) as HF.
  set (M := mainSize (axis el) R) in *. set (F := fixedTotal st (axis el) (children el)) in *.
  set (b := Z.of_N (border el)) in *. assert (0 <= b) by lia.
  rewrite to_int_id in Hsize by (unfold in_int, INT_MIN, INT_MAX in *; lia).
  set (size := availableMainSize el pb) in *.
  assert (Hsz : 0 <= size <= INT_MAX) by lia.
  pose proof (proportionTotal_nonneg st (children el)) as HP0.
  set (P := proportionTotal st (children el)) in *.
  apply sumProportions_spec in Hv as [Hvm Hvr].
  assert (v = P) as ->.
  { destruct (children el) as [|e0 cs0] eqn:Hcs.
    - simpl in Hi. done.
    - rewrite <- (to_int_id v) by (by apply Hvr).
      rewrite <- (to_int_id P) by (unfold in_int, INT_MIN, INT_MAX in *; lia).
      apply to_int_eqm. by rewrite Z.add_0_l in Hvm. }
  pose proof (normalise_pos P) as Ht1. pose proof (normalise_ge P) as Ht2.
  set (total := normalise P) in *.
  assert (Hpc : ∀ e c, e ∈ children el → getElement e st = Some c →
                       Z.of_N (proportion c) <= total).
  { intros e c He Hc. pose proof (proportionTotal_bound st _ e c He Hreg Hc). lia. }
  pose proof (widths_sum st el size total Hsz Ht1 _ Hreg Hpc) as Hsum.
  pose proof (widths_nonneg st el size total Hsz Ht1 _ Hpc Hfix) as Hnn.
  fold F P in Hsum.
  assert (Hq : Z.quot size total * P <= size).
  { destruct (decide (P = 0)) as [->|]; [lia|].
    assert (total = P) as -> by (unfold total, normalise; destruct (Z.leb_spec P 0); lia).
    rewrite Z.quot_div_nonneg by lia. rewrite Z.mul_comm. apply Z.mul_div_le. lia. }
  destruct (sumZ_take_mono _ i j Hnn Hij) as [Hm1 Hm2].
  apply placeAll_positions in Hi as (c & Hci & Hc & ->).
  apply placeAll_positions in Hj as (c' & Hcj & Hc' & ->).
  apply reserveFixed_spec in Hpb as (_ & _ & Hx & Hy).
  assert (Hpos : mainPos (axis el) pb = mainPos (axis el) R).
  { unfold mainPos. by destruct (axis el). }
  rewrite Hpos.
  pose proof (Hoff i j ci cj c c' Hij Hci Hcj Hc Hc') as Ho.
  destruct (Hrange ci c) as [Hlo1 Hhi1]; [by eapply list_elem_of_lookup_2|done|].
  destruct (Hrange cj c') as [Hlo2 Hhi2]; [by eapply list_elem_of_lookup_2|done|].
  fold M b in Hlo1, Hhi1, Hlo2, Hhi2 |- *.
  destruct (sumZ_take_mono _ i i Hnn (le_n _)) as [_ Hm3].
  rewrite !to_int_id; unfold in_int; lia.
Qed.

Lemma placeChild_size el size total e c pb :
  mainSize (axis el) (placeChild el size total e c pb).1
    = if decide (e ≠ back (children el))
      then to_int (childWidth el size total c - Z.of_N (spacing el))
      else childWidth el size total c.
Proof.
  unfold placeChild, childWidth.
  destruct (axis el); simpl; by destruct (decide (e ≠ _)).
Qed.

Lemma childWidth_cases el z total c :
  childWidth el (to_int z) total c
    = if decide (proportion c = 0%N) then mainSize (axis el) (bounds c)
      else to_int (Z.quot (to_int z) total * Z.of_N (proportion c)).
Proof.
  unfold childWidth. destruct (decide (proportion c = 0%N)) as [->|Hne]; [done|].
  rewrite decide_True by lia. rewrite Z.sub_0_r.
  by rewrite (to_int_id (to_int z)) by apply to_int_in_int.
Qed.

(** In a well-formed tree the containers above an element form a chain. *)
Lemma wf_ancestors_chain st a b k :
  wf_tree st →
  rtc (is_child (m_elements st)) a k → rtc (is_child (m_elements st)) b k →
  rtc (is_child (m_elements st)) a b ∨ rtc (is_child (m_elements st)) b a.
Proof.
  intros Hwf Ha. revert b. revert k Ha.
  apply (rtc_ind_r (λ k, ∀ b, rtc (is_child (m_elements st)) b k →
           rtc (is_child (m_elements st)) a b ∨ rtc (is_child (m_elements st)) b a)).
  { intros b Hb. by right. }
  intros y z Hay Hyz IH b Hb.
  apply rtc_inv_r in Hb as [->|(y' & Hby' & Hy'z)].
  - left. by eapply rtc_r.
  - assert (y' = y) as -> by (by eapply (wf_parent_unique st Hwf)).
    by apply IH.
Qed.

(** [performLayout] starts at identity 1: in a well-formed tree, an
    element without parent other than 1, and everything below it, is not
    visited, and its entry in the rectangle map stays as it was. *)
Lemma performLayout_other_roots (fuel : nat) (st st' : Flexer) (r k : N)
    (elr : Element) :
  wf_tree st → performLayout fuel st = Done st' →
  getElement r st = Some elr → parent elr = 0%N → r ≠ 1%N →
  rtc (is_child (m_elements st)) r k →
  rects st' !! k = rects st !! k.
Proof.
  intros Hwf H Hel Hroot Hr1 Hrk.
  eapply (performContainerLayout_frame (m_elements st)); [done|exact H|].
  intros H1k.
  destruct (wf_ancestors_chain _ _ _ _ Hwf H1k Hrk) as [H1r|Hr1'].
  - apply rtc_inv_r in H1r as [?|(p & _ & Hpr)]; [done|].
    destruct (wf_child st Hwf _ _ Hpr) as (Hp & _ & ec & Hec & Hpar).
    unfold getElement in Hel. assert (ec = elr) as -> by congruence. lia.
  - pose proof (wf_desc_le st Hwf _ _ Hr1') as Hle.
    destruct Hwf as [_ Hall]. destruct (Hall r elr Hel) as ((? & _) & _). lia.
Qed.


(** * The claims *)

(** ** Registration *)

Lemma createAll_globalID els : ∀ st ids st',
  createAll els st = Some (ids, st') →
  (m_globalID st + N.of_nat (length els) < 2 ^ 64)%N →
  m_globalID st' = (m_globalID st + N.of_nat (length els))%N.
Proof.
  induction els as [|el els IH]; intros st ids st' H Hlt; simpl in H.
  - inversion H; subst. simpl. lia.
  - destruct (createElement el st) as [[id st1]|] eqn:Hc; simpl in H; [|done].
    destruct (createAll els st1) as [[ids1 st2]|] eqn:Ha; simpl in H; [|done].
    inversion H; subst; clear H.
    apply createElement_inv in Hc as (-> & Hg & _).
    assert (Hlen : (N.of_nat (length (el :: els)) = N.of_nat (length els) + 1)%N)
      by (simpl length; lia).
    rewrite Hlen in *. rewrite N.mod_small in Hg by lia.
    rewrite (IH _ _ _ Ha) by (rewrite Hg; lia). rewrite Hg. lia.
Qed.

(** C10 as stated fails: an element registered with its own future
    identity as parent is stored with itself as only child. *)
Lemma C10_counterexample :
  ∃ st' e',
    createElement (mkElement 1%N defaultRect 1%N 3%N 3%N [] Horizontal) newFlexer
      = Some (1%N, st') ∧
    getElement 1%N st' = Some e' ∧ children e' = [1%N] ∧ children e' ≠ [].
Proof. eexists _, _. split; [vm_compute; reflexivity|]. by vm_compute. Qed.

(** C10 (amended): after any successful registrations on a fresh engine,
    the next [createElement el] returns the next integer, so that the
    identities are 1, 2, 3, ...; the element it stores has the bounds,
    axis, proportion, border and spacing of [el], the parent of [el], and
    no children whatever [children el] holds, unless [parent el] is the
    identity being allocated, in which case its children are that identity
    alone.  (The counter is 64 bits wide; fewer than 2^64 - 1 calls.) *)
Theorem C10_createElement (els : list Element) (ids : list N) (st : Flexer)
    (el : Element) (id : N) (st' : Flexer) :
  createAll els newFlexer = Some (ids, st) →
  createElement el st = Some (id, st') →
  (N.of_nat (length els) < 2 ^ 64 - 1)%N →
  ids = N.of_nat <$> seq 1 (length els) ∧
  id = N.of_nat (S (length els)) ∧
  ∃ e', getElement id st' = Some e' ∧
        bounds e' = bounds el ∧ axis e' = axis el ∧
        proportion e' = proportion el ∧ border e' = border el ∧
        spacing e' = spacing el ∧ parent e' = parent el ∧
        children e' = if decide (parent el = id) then [id] else [].
Proof.
  intros Hall Hc Hlt.
  pose proof (createAll_ids _ _ _ _ Hall) as Hids.
  pose proof (createAll_globalID _ _ _ _ Hall) as Hg.
  simpl in Hids, Hg. specialize (Hids ltac:(lia)). specialize (Hg ltac:(lia)).
  apply createElement_inv in Hc as (-> & _ & _ & e' & He' & Hb & Ha & Hp & Hbo & Hs & Hpa & Hch).
  split; [|split].
  - rewrite Hids, <- fmap_S_seq, <- list_fmap_compose.
    apply list_fmap_ext. intros i k _. simpl. lia.
  - lia.
  - exists e'. split_and!; try done. rewrite Hch.
    destruct (decide (parent el = m_globalID st)) as [Heq|Hne].
    + rewrite decide_True; [done|]. split; [done|lia].
    + rewrite decide_False; [done|]. by intros [? _].
Qed.

Lemma C10_createElement_witness :
  [1%N; 2%N] = N.of_nat <$> seq 1 2 ∧ 3%N = N.of_nat 3 ∧
  ∃ e', getElement 3%N (built [defaultElement; defaultElement;
                               mkElement 2%N defaultRect 0%N 1%N 2%N [7%N; 8%N] Vertical])
          = Some e' ∧
        bounds e' = defaultRect ∧ axis e' = Vertical ∧
        proportion e' = 0%N ∧ border e' = 1%N ∧ spacing e' = 2%N ∧
        parent e' = 2%N ∧ children e' = [].
Proof.
  apply (C10_createElement [defaultElement; defaultElement] [1%N; 2%N]
           (built [defaultElement; defaultElement])
           (mkElement 2%N defaultRect 0%N 1%N 2%N [7%N; 8%N] Vertical) 3%N).
  - vm_compute. reflexivity.
  - vm_compute. reflexivity.
  - vm_compute. reflexivity.
Defined.

(** ** Reading a rectangle *)

Lemma getElementRect_spec id st :
  (getElementRect id st).1 = default defaultRect (rects st !! id) ∧
  m_elements (getElementRect id st).2 = m_elements st ∧
  m_globalID (getElementRect id st).2 = m_globalID st ∧
  rects (getElementRect id st).2
    = match rects st !! id with
      | Some _ => rects st
      | None => <[id := defaultRect]> (rects st)
      end.
Proof.
  unfold getElementRect, rectAt, rects.
  by destruct (m_elementLayoutRects st !! id).
Qed.

(** C8 fails on the code: [getElementRect] reads with
    [m_elementLayoutRects[id]], and [operator[]] inserts a default
    rectangle under an identity that has none.  On a fresh engine,
    [getElementRect(7)] returns the default rectangle and leaves the
    rectangle map with one entry. *)
Theorem C8_getElementRect_inserts :
  (getElementRect 7%N newFlexer).1 = mkRect 0 0 100 100 ∧
  rects newFlexer !! 7%N = None ∧
  rects (getElementRect 7%N newFlexer).2 !! 7%N = Some (mkRect 0 0 100 100) ∧
  rects (getElementRect 7%N newFlexer).2 ≠ rects newFlexer.
Proof.
  split_and!; try (vm_compute; reflexivity).
  intros Heq. assert (rects (getElementRect 7%N newFlexer).2 !! 7%N = rects newFlexer !! 7%N)
    as Hl by (by rewrite Heq).
  vm_compute in Hl. discriminate.
Qed.

(** ** The layout pass *)

Lemma demo_wf : wf_tree demo.
Proof. apply (bool_decide_unpack _). vm_compute. reflexivity. Qed.

Lemma demo_run : performLayout 3 demo = Done (run 3 demo).
Proof. vm_compute. reflexivity. Qed.

(** On a well-formed tree the pass finishes, with a fuel that the counter
    of identities bounds. *)
Lemma performLayout_total st :
  wf_tree st → ∃ st', performLayout (N.to_nat (m_globalID st)) st = Done st'.
Proof.
  intros Hwf. apply (performContainerLayout_total st Hwf); [done|].
  destruct Hwf as [? _]. lia.
Qed.

(** Trees built by [createElement] alone are well formed, as long as no
    call names the identity it is about to allocate as its parent. *)
Lemma createAll_wf els : ∀ st ids st',
  wf_tree st →
  createAll els st = Some (ids, st') →
  (m_globalID st + N.of_nat (length els) < 2 ^ 64)%N →
  (∀ i el, els !! i = Some el → parent el ≠ (m_globalID st + N.of_nat i)%N) →
  wf_tree st'.
Proof.
  induction els as [|el els IH]; intros st ids st' Hwf H Hlt Hself; simpl in H.
  - by inversion H; subst.
  - destruct (createElement el st) as [[id st1]|] eqn:Hc; simpl in H; [|done].
    destruct (createAll els st1) as [[ids1 st2]|] eqn:Ha; simpl in H; [|done].
    inversion H; subst; clear H.
    assert (Hlen : (N.of_nat (length (el :: els)) = N.of_nat (length els) + 1)%N)
      by (simpl length; lia).
    rewrite Hlen in Hlt.
    pose proof (createElement_inv _ _ _ _ Hc) as (Hid & Hg & _).
    rewrite N.mod_small in Hg by lia.
    apply (IH st1 ids1); [|done|rewrite Hg; lia|].
    + eapply createElement_wf; [done|exact Hc| |lia].
      rewrite Hid. specialize (Hself 0%nat el eq_refl).
      by rewrite N.add_0_r in Hself.
    + intros i el' Hi. specialize (Hself (S i) el' Hi). rewrite Hg.
      intros Heq. apply Hself. rewrite Heq. lia.
Qed.

(** The rectangles of the tree of [main.cpp]. *)
Example demo_rects :
  map_to_list (rects (run 3 demo))
  ≡ₚ [ (1%N, mkRect 10 10 236 220); (2%N, mkRect 13 13 230 40);
       (3%N, mkRect 16 16 79 34); (4%N, mkRect 98 16 57 34);
       (5%N, mkRect 158 16 82 34) ].
Proof.
  assert (map_to_list (rects (run 3 demo))
          = [ (4%N, mkRect 98 16 57 34); (2%N, mkRect 13 13 230 40);
              (5%N, mkRect 158 16 82 34); (3%N, mkRect 16 16 79 34);
              (1%N, mkRect 10 10 236 220) ]) as -> by (vm_compute; reflexivity).
  apply (bool_decide_unpack _). vm_compute. reflexivity.
Qed.

(** C9: a finished [performLayout] leaves the element registry (and the
    identity counter) as they were; only the rectangle map may differ. *)
Theorem C9_performLayout_registry (fuel : nat) (st st' : Flexer) :
  performLayout fuel st = Done st' →
  m_elements st' = m_elements st ∧ m_globalID st' = m_globalID st ∧
  ∀ id, getElement id st' = getElement id st.
Proof.
  intros H. apply performContainerLayout_registry in H as [HE HG].
  split; [done|]. split; [done|]. intros id. unfold getElement. by rewrite HE.
Qed.

Lemma C9_performLayout_registry_witness :
  m_elements (run 3 demo) = m_elements demo ∧
  m_globalID (run 3 demo) = m_globalID demo ∧
  ∀ id, getElement id (run 3 demo) = getElement id demo.
Proof. apply (C9_performLayout_registry 3 demo (run 3 demo)). exact demo_run. Defined.

(** C6: a second [performLayout] right after a finished one finishes too
    and leaves the same rectangle map (indeed the same engine state). *)
Theorem C6_performLayout_idempotent (fuel : nat) (st st1 : Flexer) :
  performLayout fuel st = Done st1 →
  ∃ st2, performLayout fuel st1 = Done st2 ∧ rects st2 = rects st1 ∧ st2 = st1.
Proof.
  intros H. exists st1. split; [|done]. exact (performContainerLayout_again _ _ _ _ H).
Qed.

Lemma C6_performLayout_idempotent_witness :
  ∃ st2, performLayout 3 (run 3 demo) = Done st2 ∧
         rects st2 = rects (run 3 demo) ∧ st2 = run 3 demo.
Proof. apply (C6_performLayout_idempotent 3 demo (run 3 demo)). exact demo_run. Defined.

(** C3 as stated fails: [performLayout] starts at identity 1 only, so a
    second element without parent is never visited and gets no rectangle;
    reading it yields the default rectangle, not its bounds. *)
Lemma C3_counterexample :
  ∃ el st',
    getElement 2%N two_roots = Some el ∧ parent el = 0%N ∧
    bounds el = mkRect 5 5 50 50 ∧
    performLayout 2 two_roots = Done st' ∧
    rects st' !! 2%N = None ∧
    (getElementRect 2%N st').1 = mkRect 0 0 100 100 ∧
    (getElementRect 2%N st').1 ≠ bounds el.
Proof.
  eexists _, _. split; [vm_compute; reflexivity|].
  split; [reflexivity|]. split; [reflexivity|].
  split; [vm_compute; reflexivity|].
  split; [vm_compute; reflexivity|]. split; [vm_compute; reflexivity|].
  vm_compute. discriminate.
Qed.

(** C3 (amended): when the element of identity 1 has no parent, every
    finished [performLayout] leaves its stored bounds as its rectangle,
    and on a well-formed tree [performLayout] does finish.  On a
    well-formed tree an element without parent of any other identity, and
    everything below it, is not visited: its entry in the rectangle map
    stays as it was before the pass, so that it has no rectangle unless
    the map held one already. *)
Theorem C3_root_rect (st : Flexer) :
  (∀ el, getElement 1%N st = Some el → parent el = 0%N →
     (∀ fuel st', performLayout fuel st = Done st' →
                  rects st' !! 1%N = Some (bounds el)) ∧
     (wf_tree st →
      ∃ st', performLayout (N.to_nat (m_globalID st)) st = Done st' ∧
             rects st' !! 1%N = Some (bounds el))) ∧
  (wf_tree st →
   ∀ fuel st' r elr k,
     performLayout fuel st = Done st' →
     getElement r st = Some elr → parent elr = 0%N → r ≠ 1%N →
     rtc (is_child (m_elements st)) r k →
     rects st' !! k = rects st !! k ∧
     (rects st !! k = None → rects st' !! k = None)).
Proof.
  split.
  - intros el Hel Hroot.
    assert (Hall : ∀ fuel st', performLayout fuel st = Done st' →
                   rects st' !! 1%N = Some (bounds el)).
    { intros fuel st' H.
      eapply (performContainerLayout_root (m_elements st) 1%N el Hel Hroot);
        [|exact H|by left]. done. }
    split; [done|]. intros Hwf.
    destruct (performLayout_total st Hwf) as [st' H]. exists st'. split; [done|].
    by eapply Hall.
  - intros Hwf fuel st' r elr k H Hel Hroot Hr Hrk.
    pose proof (performLayout_other_roots _ _ _ _ _ _ Hwf H Hel Hroot Hr Hrk) as Heq.
    split; [done|]. intros Hnone. by rewrite Heq.
Qed.

Lemma C3_root_rect_witness :
  rects (run 3 demo) !! 1%N = Some (mkRect 10 10 236 220) ∧
  rects (run 2 two_roots) !! 2%N = rects two_roots !! 2%N.
Proof.
  split.
  - apply (proj1 (proj1 (C3_root_rect demo)
             (mkElement 0%N (mkRect 10 10 236 220) 1%N 3%N 3%N [2%N] Vertical)
             ltac:(vm_compute; reflexivity) ltac:(reflexivity)) 3%nat (run 3 demo)).
    exact demo_run.
  - apply (proj1 (proj2 (C3_root_rect two_roots)
             ltac:(apply (bool_decide_unpack _); vm_compute; reflexivity)
             2%nat (run 2 two_roots) 2%N
             (mkElement 0%N (mkRect 5 5 50 50) 1%N 0%N 0%N [] Horizontal) 2%N
             ltac:(vm_compute; reflexivity) ltac:(vm_compute; reflexivity)
             ltac:(reflexivity) ltac:(discriminate) (rtc_refl _ _))).
Defined.




(** On a well-formed tree, the rectangle map of a finished pass holds for
    every container reached from identity 1 the rectangles that
    [childRects] derives from the container's own rectangle. *)
Lemma performLayout_laid_out (fuel : nat) (st st' : Flexer) (d : N) :
  wf_tree st → performLayout fuel st = Done st' →
  rtc (is_child (m_elements st)) 1%N d →
  laid_out st (rects st') d.
Proof.
  intros Hwf H Hd. by eapply (performContainerLayout_lift st Hwf fuel 1%N st st').
Qed.

Lemma laid_out_child st r d el R c Rc :
  laid_out st r d → getElement d st = Some el → c ∈ children el →
  r !! d = Some R → r !! c = Some Rc →
  ∃ rs, childRects st el R = Some rs ∧ (c, Rc) ∈ rs.
Proof.
  intros Hlo Hel Hc HR HRc.
  destruct (Hlo el Hel) as (R' & rs & HR' & Hrs & Hall).
  { intros Hnil. rewrite Hnil in Hc. by apply elem_of_nil in Hc. }
  assert (R' = R) as -> by congruence. exists rs. split; [done|].
  rewrite <- (childRects_fst _ _ _ _ Hrs) in Hc.
  apply list_elem_of_fmap in Hc as ([c' rc] & -> & Hin). simpl in *.
  rewrite (Hall _ _ Hin) in HRc. by inversion HRc; subst.
Qed.

Lemma childRects_cross st el R rs c rc :
  childRects st el R = Some rs → (c, rc) ∈ rs →
  crossSize (axis el) rc = to_int (crossSize (axis el) R - Z.of_N (border el) * 2).
Proof.
  unfold childRects. intros H Hin.
  destruct (totalProportions st (children el)) as [total|]; [|done]. simpl in H.
  destruct (reserveFixed st _ _ R) as [pb|] eqn:Hpb; [|done]. simpl in H.
  inversion H; subst rs; clear H.
  apply reserveFixed_spec in Hpb as (_ & <- & _).
  by eapply placeAll_cross.
Qed.

(** C4 as stated fails on a tree that [createElement] alone does not
    build.  An element without parent that is listed among the children of
    another is first given the rectangle derived from its container and
    then, in the recursive call on it, its own stored bounds: the child
    stored as (7, 8, 9, 10) in a horizontal container (0, 0, 300, 100) with
    border 0 ends with height 10, not 100. *)
Lemma C4_counterexample :
  ¬ wf_tree adopted ∧
  getElement 1%N adopted
    = Some (mkElement 0%N (mkRect 0 0 300 100) 1%N 0%N 0%N [2%N] Horizontal) ∧
  getElement 2%N adopted
    = Some (mkElement 0%N (mkRect 7 8 9 10) 1%N 0%N 0%N [] Horizontal) ∧
  performLayout 2 adopted = Done (run 2 adopted) ∧
  rects (run 2 adopted) !! 1%N = Some (mkRect 0 0 300 100) ∧
  rects (run 2 adopted) !! 2%N = Some (mkRect 7 8 9 10) ∧
  crossSize Horizontal (mkRect 7 8 9 10)
    ≠ to_int (crossSize Horizontal (mkRect 0 0 300 100) - Z.of_N 0 * 2).
Proof.
  split_and!; try (vm_compute; reflexivity).
  - apply (bool_decide_eq_false_1 (wf_tree adopted)). vm_compute. reflexivity.
  - vm_compute. discriminate.
Qed.

(** C4 (amended): after a finished [performLayout] on a well-formed
    tree, for every container [d] reached from identity 1 and every child
    [c] of [d],
    whatever the proportion of [c] and the axis of [d], the cross-axis
    size of the rectangle of [c] is that of the rectangle of [d] minus
    twice the border of [d], in 32-bit arithmetic; the difference itself
    when it is an [int]. *)
Theorem C4_cross_axis (fuel : nat) (st st' : Flexer) (d c : N)
    (el : Element) (R Rc : Rect) :
  wf_tree st → performLayout fuel st = Done st' →
  rtc (is_child (m_elements st)) 1%N d →
  getElement d st = Some el → c ∈ children el →
  rects st' !! d = Some R → rects st' !! c = Some Rc →
  crossSize (axis el) Rc
    = to_int (crossSize (axis el) R - Z.of_N (border el) * 2) ∧
  (in_int (crossSize (axis el) R - Z.of_N (border el) * 2) →
   crossSize (axis el) Rc = crossSize (axis el) R - Z.of_N (border el) * 2).
Proof.
  intros Hwf H Hd Hel Hc HR HRc.
  pose proof (performLayout_laid_out _ _ _ _ Hwf H Hd) as Hlo.
  destruct (laid_out_child _ _ _ _ _ _ _ Hlo Hel Hc HR HRc) as (rs & Hrs & Hin).
  pose proof (childRects_cross _ _ _ _ _ _ Hrs Hin) as Hcross.
  split; [done|]. intros Hr. by rewrite Hcross, to_int_id.
Qed.

Lemma demo_child_1_2 : rtc (is_child (m_elements demo)) 1%N 2%N.
Proof.
  apply rtc_once. eexists. split; [vm_compute; reflexivity|].
  apply list_elem_of_here.
Qed.

Lemma C4_cross_axis_witness :
  crossSize Horizontal (mkRect 98 16 57 34)
    = to_int (crossSize Horizontal (mkRect 13 13 230 40) - Z.of_N 3 * 2) ∧
  (in_int (crossSize Horizontal (mkRect 13 13 230 40) - Z.of_N 3 * 2) →
   crossSize Horizontal (mkRect 98 16 57 34)
     = crossSize Horizontal (mkRect 13 13 230 40) - Z.of_N 3 * 2).
Proof.
  apply (C4_cross_axis 3 demo (run 3 demo) 2%N 4%N
           (mkElement 1%N (mkRect 0 0 0 40) 0%N 3%N 3%N [3%N; 4%N; 5%N] Horizontal)
           (mkRect 13 13 230 40) (mkRect 98 16 57 34)).
  - exact demo_wf.
  - exact demo_run.
  - exact demo_child_1_2.
  - vm_compute. reflexivity.
  - apply list_elem_of_further, list_elem_of_here.
  - vm_compute. reflexivity.
  - vm_compute. reflexivity.
Defined.

(** C1 as stated fails: the span is read from [parentBounds] after the
    sizes of the fixed children were taken off it through the reference
    [compSize].  In a container 300 wide without border, holding a fixed
    child 100 wide and a stretch child, the span is 200 and not 300, and
    the stretch child comes out 200 wide. *)
Lemma C1_counterexample :
  let root := mkElement 0%N (mkRect 0 0 300 100) 1%N 0%N 0%N [2%N; 3%N] Horizontal in
  getElement 1%N mixed = Some root ∧
  (proportion <$> getElement 2%N mixed) = Some 0%N ∧
  (proportion <$> getElement 3%N mixed) = Some 1%N ∧
  reserveFixed mixed Horizontal [2%N; 3%N] (mkRect 0 0 300 100)
    = Some (mkRect 0 0 200 100) ∧
  availableMainSize root (mkRect 0 0 200 100) = 200 ∧
  spec_availableMainSize root (mkRect 0 0 300 100) = 300 ∧
  availableMainSize root (mkRect 0 0 200 100)
    ≠ spec_availableMainSize root (mkRect 0 0 300 100) ∧
  performLayout 2 mixed = Done (run 2 mixed) ∧
  rects (run 2 mixed) !! 1%N = Some (mkRect 0 0 300 100) ∧
  rects (run 2 mixed) !! 3%N = Some (mkRect 100 0 200 100).
Proof. split_and!; try (vm_compute; reflexivity). vm_compute. discriminate. Qed.

(** C1 (amended): when [performContainerLayout] lays out a container with
    children, the span [size] it hands to the third loop is the main-axis
    size of the rectangle the container starts with, minus the stored
    main-axis sizes of its children of proportion 0, minus twice its
    border, in 32-bit arithmetic. *)
Theorem C1_availableMainSize (fuel : nat) (id : N) (st st' : Flexer) (el : Element) :
  performContainerLayout (S fuel) id st = Done st' →
  getElement id st = Some el → children el ≠ [] →
  ∃ total pb,
    totalProportions st (children el) = Some total ∧
    reserveFixed st (axis el) (children el) (entryRect id st) = Some pb ∧
    availableMainSize el pb
      = to_int (mainSize (axis el) (entryRect id st)
                - fixedTotal st (axis el) (children el)
                - Z.of_N (border el) * 2) ∧
    layoutChildren (performContainerLayout fuel) el (availableMainSize el pb)
      total (children el) pb (rectAt id (seedRoot id el st)).2 = Done st'.
Proof.
  intros H Hel Hne.
  apply performContainerLayout_step in H
    as [[Hn _]|(el' & total & Hel' & Htot & [[Hnil _]|(_ & pb & Hpb & H)])].
  - congruence.
  - assert (el' = el) as -> by congruence. done.
  - assert (el' = el) as -> by congruence.
    rewrite entryRect_seed in Hpb by done.
    exists total, pb. split; [done|]. split; [done|]. split; [|done].
    by apply availableMainSize_spec.
Qed.

Lemma C1_availableMainSize_witness :
  ∃ total pb,
    totalProportions mixed [2%N; 3%N] = Some total ∧
    reserveFixed mixed Horizontal [2%N; 3%N] (entryRect 1%N mixed) = Some pb ∧
    availableMainSize
      (mkElement 0%N (mkRect 0 0 300 100) 1%N 0%N 0%N [2%N; 3%N] Horizontal) pb
      = to_int (mainSize Horizontal (entryRect 1%N mixed)
                - fixedTotal mixed Horizontal [2%N; 3%N] - Z.of_N 0 * 2) ∧
    layoutChildren (performContainerLayout 1)
      (mkElement 0%N (mkRect 0 0 300 100) 1%N 0%N 0%N [2%N; 3%N] Horizontal)
      (availableMainSize
         (mkElement 0%N (mkRect 0 0 300 100) 1%N 0%N 0%N [2%N; 3%N] Horizontal) pb)
      total [2%N; 3%N] pb
      (rectAt 1%N
         (seedRoot 1%N
            (mkElement 0%N (mkRect 0 0 300 100) 1%N 0%N 0%N [2%N; 3%N] Horizontal)
            mixed)).2
    = Done (run 2 mixed).
Proof.
  apply (C1_availableMainSize 1 1%N mixed (run 2 mixed)
           (mkElement 0%N (mkRect 0 0 300 100) 1%N 0%N 0%N [2%N; 3%N] Horizontal)).
  - vm_compute. reflexivity.
  - vm_compute. reflexivity.
  - discriminate.
Defined.

(** C7 as stated fails: sizes are not clamped, so a border larger than
    the container makes the slices negative and the cursor move
    backwards.  In a container 10 wide with border 10 and two stretch
    children, the first child is placed at x = 10 and the second at
    x = 5. *)
Lemma C7_counterexample :
  (children <$> getElement 1%N cramped) = Some [2%N; 3%N] ∧
  performLayout 2 cramped = Done (run 2 cramped) ∧
  rects (run 2 cramped) !! 2%N = Some (mkRect 10 10 (-5) 80) ∧
  rects (run 2 cramped) !! 3%N = Some (mkRect 5 10 (-5) 80) ∧
  ¬ (mainPos Horizontal (mkRect 10 10 (-5) 80)
     <= mainPos Horizontal (mkRect 5 10 (-5) 80)).
Proof. split_and!; try (vm_compute; reflexivity). simpl. lia. Qed.

(** The stored offset of a child is added to its position: with a first
    child stored 200 to the right, the children of a container 300 wide are
    placed at x = 200 and then x = 150. *)
Lemma order_needs_offsets :
  performLayout 2 shifted = Done (run 2 shifted) ∧
  rects (run 2 shifted) !! 2%N = Some (mkRect 200 0 150 100) ∧
  rects (run 2 shifted) !! 3%N = Some (mkRect 150 0 150 100).
Proof. split_and!; vm_compute; reflexivity. Qed.

(** C7 (amended): after a finished [performLayout] on a well-formed tree,
    in every container reached from identity 1 that is [orderly] (reserved
    sizes and border fit in its main-axis size, no fixed child has a
    negative stored size, stored main-axis offsets of the children do not
    decrease, no 32-bit overflow), the main-axis positions of the children
    are non-decreasing along the children sequence. *)
Theorem C7_order_preserved (fuel : nat) (st st' : Flexer) (d : N)
    (el : Element) (R : Rect) (i j : nat) (ci cj : N) (ri rj : Rect) :
  wf_tree st → performLayout fuel st = Done st' →
  rtc (is_child (m_elements st)) 1%N d →
  getElement d st = Some el → rects st' !! d = Some R →
  orderly st el R →
  (i ≤ j)%nat →
  children el !! i = Some ci → children el !! j = Some cj →
  rects st' !! ci = Some ri → rects st' !! cj = Some rj →
  mainPos (axis el) ri <= mainPos (axis el) rj.
Proof.
  intros Hwf H Hd Hel HR Hord Hij Hi Hj Hri Hrj.
  pose proof (performLayout_laid_out _ _ _ _ Hwf H Hd) as Hlo.
  destruct (Hlo el Hel) as (R' & rs & HR' & Hrs & Hall).
  { intros Hnil. by rewrite Hnil in Hi. }
  assert (R' = R) as -> by congruence.
  pose proof (childRects_fst _ _ _ _ Hrs) as Hfst.
  assert (Hlook : ∀ n c r, children el !! n = Some c → rects st' !! c = Some r →
                           rs !! n = Some (c, r)).
  { intros n c r Hn Hr. rewrite <- Hfst, list_lookup_fmap in Hn.
    destruct (rs !! n) as [[c' r']|] eqn:Hrsn; [|done]. simpl in Hn.
    inversion Hn; subst c'. f_equal. f_equal.
    apply list_elem_of_lookup_2 in Hrsn. apply Hall in Hrsn. congruence. }
  eapply (childRects_ordered st el R rs Hrs Hord i j ci cj); eauto.
Qed.

Lemma demo_orderly :
  orderly demo
    (mkElement 1%N (mkRect 0 0 0 40) 0%N 3%N 3%N [3%N; 4%N; 5%N] Horizontal)
    (mkRect 13 13 230 40).
Proof.
  assert (Hch : ∀ e c, e ∈ [3%N; 4%N; 5%N] → getElement e demo = Some c →
                       bounds c = mkRect 0 0 60 0).
  { intros e c He Hc.
    repeat (apply elem_of_cons in He as [->|He]);
      [vm_compute in Hc; by inversion Hc..|by apply elem_of_nil in He]. }
  unfold orderly. split_and!.
  - by vm_compute.
  - by vm_compute.
  - by vm_compute.
  - intros e c He Hc _. simpl. rewrite (Hch e c He Hc). simpl. lia.
  - intros i j ci cj c c' _ Hi Hj Hc Hc'. simpl in *.
    apply list_elem_of_lookup_2 in Hi, Hj.
    rewrite (Hch ci c Hi Hc), (Hch cj c' Hj Hc'). simpl. lia.
  - intros e c He Hc. simpl in *. rewrite (Hch e c He Hc).
    unfold INT_MIN, INT_MAX. simpl. lia.
Qed.

Lemma C7_order_preserved_witness :
  mainPos Horizontal (mkRect 16 16 79 34) <= mainPos Horizontal (mkRect 158 16 82 34).
Proof.
  apply (C7_order_preserved 3 demo (run 3 demo) 2%N
           (mkElement 1%N (mkRect 0 0 0 40) 0%N 3%N 3%N [3%N; 4%N; 5%N] Horizontal)
           (mkRect 13 13 230 40) 0 2 3%N 5%N
           (mkRect 16 16 79 34) (mkRect 158 16 82 34)).
  - exact demo_wf.
  - exact demo_run.
  - exact demo_child_1_2.
  - vm_compute. reflexivity.
  - vm_compute. reflexivity.
  - exact demo_orderly.
  - lia.
  - reflexivity.
  - reflexivity.
  - vm_compute. reflexivity.
  - vm_compute. reflexivity.
Defined.

(** ** The scenario of three equal stretch children *)

Section scenario.
Variables (s p b2 s2 b3 s3 b4 s4 : N) (a2 a3 a4 : Axis) (cs2 cs3 cs4 : list N).

(** Evaluates the 32-bit operations whose operands are known. *)
Ltac ground_ints :=
  repeat match goal with
    | |- context [Z.of_N ?n] =>
        lazymatch n with
        | context [s] => fail
        | _ => let v := eval vm_compute in (Z.of_N n) in
               progress change (Z.of_N n) with v
        end
    | |- context [to_int ?z] =>
        lazymatch z with
        | context [s] => fail
        | _ => let v := eval vm_compute in (to_int z) in
               progress change (to_int z) with v
        end
    end.

Lemma scenario_layout :
  ∃ st st',
    createAll [scenario_root s p; scenario_child b2 s2 a2 cs2;
               scenario_child b3 s3 a3 cs3; scenario_child b4 s4 a4 cs4] newFlexer
      = Some ([1%N; 2%N; 3%N; 4%N], st) ∧
    performLayout 2 st = Done st' ∧
    rects st' !! 1%N = Some (mkRect 0 0 300 100) ∧
    rects st' !! 2%N = Some (mkRect 0 0 (to_int (100 - Z.of_N s)) 100) ∧
    rects st' !! 3%N = Some (mkRect 100 0 (to_int (100 - Z.of_N s)) 100) ∧
    rects st' !! 4%N = Some (mkRect 200 0 100 100).
Proof.
  eexists _, _. split; [vm_compute; reflexivity|].
  split; [cbv -[to_int Z.sub Z.add Z.mul Z.of_N Z.quot]; reflexivity|].
  cbv -[to_int Z.sub Z.add Z.mul Z.of_N Z.quot].
  ground_ints. done.
Qed.
End scenario.

(** C2: a root with bounds (0,0,300,100), horizontal axis, border 0 and
    spacing [s], and three children of proportion 1 with stored bounds
    (0,0,0,0), registered on a fresh engine.  Every [performLayout] with
    fuel 2 or more finishes; the children get the widths [100 - s],
    [100 - s] and 100 (the subtraction in 32-bit arithmetic), the height
    100, and the x-offsets 0, 100 and 200: the spacing is taken off the
    width of a child that is not the last and does not move its successor. *)
Theorem C2_three_stretch_children (s p b2 s2 b3 s3 b4 s4 : N) (a2 a3 a4 : Axis)
    (cs2 cs3 cs4 : list N) (k : nat) :
  ∃ st st',
    createAll [scenario_root s p; scenario_child b2 s2 a2 cs2;
               scenario_child b3 s3 a3 cs3; scenario_child b4 s4 a4 cs4] newFlexer
      = Some ([1%N; 2%N; 3%N; 4%N], st) ∧
    performLayout (2 + k) st = Done st' ∧
    rects st' !! 1%N = Some (mkRect 0 0 300 100) ∧
    rects st' !! 2%N = Some (mkRect 0 0 (to_int (100 - Z.of_N s)) 100) ∧
    rects st' !! 3%N = Some (mkRect 100 0 (to_int (100 - Z.of_N s)) 100) ∧
    rects st' !! 4%N = Some (mkRect 200 0 100 100).
Proof.
  destruct (scenario_layout s p b2 s2 b3 s3 b4 s4 a2 a3 a4 cs2 cs3 cs4)
    as (st & st' & Hc & Hrun & Hr).
  exists st, st'. split; [done|]. split; [|done].
  apply (performContainerLayout_mono 2); [lia|done].
Qed.

(** For a spacing up to [INT_MAX] the 32-bit subtraction is the exact one. *)
Lemma scenario_width_exact (s : N) :
  Z.of_N s <= INT_MAX → to_int (100 - Z.of_N s) = 100 - Z.of_N s.
Proof. intros Hs. apply to_int_id. unfold in_int, INT_MIN, INT_MAX in *. lia. Qed.

(** * Further properties of the code *)

(** ** Registration: failure, frame and invariants *)

(** The three ways [createElement] can succeed, with the registry it
    leaves in each. *)
Lemma createElement_cases el st id st' :
  createElement el st = Some (id, st') →
  id = m_globalID st ∧
  m_globalID st' = ((m_globalID st + 1) mod 2 ^ 64)%N ∧
  m_elementLayoutRects st' = m_elementLayoutRects st ∧
  let fresh p cs := mkElement p (bounds el) (proportion el) (border el)
                      (spacing el) cs (axis el) in
  (parent el = 0%N ∧ m_elements st' = <[id := fresh 0%N []]> (m_elements st)) ∨
  (parent el ≠ 0%N ∧ parent el = id ∧
   m_elements st' = <[id := fresh id [id]]> (m_elements st)) ∨
  (parent el ≠ 0%N ∧ parent el ≠ id ∧
   ∃ q, m_elements st !! parent el = Some q ∧
        m_elements st'
        = <[parent el := mkElement (parent q) (bounds q) (proportion q) (border q)
                           (spacing q) (children q ++ [id]) (axis q)]>
            (<[id := fresh (parent el) []]> (m_elements st))).
Proof.
  unfold createElement, addParent. intros H.
  destruct (decide (parent el = 0%N)) as [Hp|Hp]; simpl in H.
  - inversion H; subst; clear H. simpl. split_and!; try done. by left.
  - rewrite lookup_insert_eq in H. simpl in H.
    destruct (decide (parent el = m_globalID st)) as [Hs|Hs].
    + rewrite Hs, lookup_insert_eq in H. simpl in H.
      inversion H; subst; clear H. simpl. split_and!; try done.
      right. left. split_and!; try done.
      by rewrite !insert_insert_eq.
    + rewrite !lookup_insert_ne in H by done.
      destruct (m_elements st !! parent el) as [q|] eqn:Hq; simpl in H; [|done].
      inversion H; subst; clear H. simpl. split_and!; try done.
      right. right. split_and!; try done. exists q. split; [done|].
      by rewrite insert_insert_eq.
Qed.

(** X1: [createElement] runs into a null pointer exactly when the parent
    it is given is neither the sentinel, nor the identity being allocated,
    nor a registered element. *)
Theorem X1_createElement_null el st :
  createElement el st = None ↔
  parent el ≠ 0%N ∧ parent el ≠ m_globalID st ∧ getElement (parent el) st = None.
Proof.
  unfold createElement, addParent, getElement.
  destruct (decide (parent el = 0%N)) as [Hp|Hp]; simpl.
  { split; [done|]. by intros [? _]. }
  rewrite lookup_insert_eq. simpl.
  destruct (decide (parent el = m_globalID st)) as [Hs|Hs].
  { rewrite Hs, lookup_insert_eq. simpl. split; [done|]. by intros (_ & ? & _). }
  rewrite !lookup_insert_ne by done.
  destruct (m_elements st !! parent el); simpl; split; try done.
  by intros (_ & _ & ?).
Qed.

(** X2: a successful [createElement] leaves the rectangle map alone and
    every element other than the new one and its parent as it was; the
    parent keeps all its fields and gets the new identity appended at the
    end of its children. *)
Theorem X2_createElement_frame el st id st' :
  createElement el st = Some (id, st') →
  rects st' = rects st ∧
  (∀ k, k ≠ id → k ≠ parent el ∨ parent el = 0%N →
        getElement k st' = getElement k st) ∧
  (parent el ≠ 0%N → parent el ≠ id →
   ∃ q, getElement (parent el) st = Some q ∧
        getElement (parent el) st'
        = Some (mkElement (parent q) (bounds q) (proportion q) (border q)
                  (spacing q) (children q ++ [id]) (axis q))).
Proof.
  intros (-> & _ & Hr & Hcases)%createElement_cases. simpl in Hcases.
  unfold rects, getElement. split; [done|].
  destruct Hcases as [[Hp ->]|[(Hp & Hs & ->)|(Hp & Hs & q & Hq & ->)]].
  - split; [|done]. intros k Hk _. by rewrite lookup_insert_ne.
  - split; [|done]. intros k Hk _. by rewrite lookup_insert_ne.
  - split.
    + intros k Hk [Hkp|?]; [|done]. by rewrite !lookup_insert_ne.
    + intros _ _. exists q. split; [done|]. by rewrite lookup_insert_eq.
Qed.

Lemma X2_createElement_frame_witness :
  rects (built [defaultElement; mkElement 1%N defaultRect 1%N 3%N 3%N [] Horizontal])
    = rects (built [defaultElement]) ∧
  (∀ k, k ≠ 2%N → k ≠ 1%N ∨ 1%N = 0%N →
        getElement k (built [defaultElement;
                             mkElement 1%N defaultRect 1%N 3%N 3%N [] Horizontal])
        = getElement k (built [defaultElement])) ∧
  (1%N ≠ 0%N → 1%N ≠ 2%N →
   ∃ q, getElement 1%N (built [defaultElement]) = Some q ∧
        getElement 1%N (built [defaultElement;
                               mkElement 1%N defaultRect 1%N 3%N 3%N [] Horizontal])
        = Some (mkElement (parent q) (bounds q) (proportion q) (border q)
                  (spacing q) (children q ++ [2%N]) (axis q))).
Proof.
  apply (X2_createElement_frame (mkElement 1%N defaultRect 1%N 3%N 3%N [] Horizontal)
           (built [defaultElement]) 2%N).
  vm_compute. reflexivity.
Defined.

Lemma is_child_insert (m : gmap N Element) k v p c :
  is_child (<[k := v]> m) p c ↔
  (p = k ∧ c ∈ children v) ∨ (p ≠ k ∧ is_child m p c).
Proof.
  unfold is_child. destruct (decide (p = k)) as [->|Hne].
  - rewrite lookup_insert_eq. split.
    + intros (el & [= <-] & Hc). by left.
    + intros [[_ Hc]|[? _]]; [|done]. by exists v.
  - rewrite lookup_insert_ne by done. split; [by right|]. by intros [[? _]|[_ ?]].
Qed.

Lemma parent_lookup_insert (m : gmap N Element) k v p c :
  parent <$> (<[k := v]> m !! c) = Some p ↔
  (c = k ∧ parent v = p) ∨ (c ≠ k ∧ parent <$> (m !! c) = Some p).
Proof.
  destruct (decide (c = k)) as [->|Hne].
  - rewrite lookup_insert_eq. simpl. split.
    + intros [= <-]. by left.
    + intros [[_ ->]|[? _]]; done.
  - rewrite lookup_insert_ne by done. split; [by right|]. by intros [[? _]|[_ ?]].
Qed.

(** Goals made of equations between identities, memberships and their
    connectives, after the case distinctions are made. *)
Ltac split_hyps :=
  repeat match goal with
    | H : _ ∧ _ |- _ => destruct H
    | H : _ ∨ _ |- _ => destruct H
    | H : False |- _ => destruct H
    end; subst.

Ltac prove_link :=
  first
    [ solve [ done | congruence ]
    | match goal with
      | |- _ ∧ _ => split; prove_link
      | |- _ ∨ _ => (left; prove_link) || (right; prove_link)
      | H : ¬ (_ ∧ _) |- _ => exfalso; apply H; clear H; prove_link
      end ].

Lemma registry_inv_newFlexer : registry_inv newFlexer.
Proof.
  split; [done|]. split; [|split].
  - intros k. simpl. rewrite lookup_empty. split; [by intros [? ?]|lia].
  - intros p c. simpl. rewrite lookup_empty. split.
    + by intros (el & Hel & _).
    + by intros [_ ?].
  - intros id el. simpl. by rewrite lookup_empty.
Qed.

Lemma createElement_registry_inv el st id st' :
  registry_inv st →
  createElement el st = Some (id, st') →
  (m_globalID st + 1 < 2 ^ 64)%N →
  registry_inv st'.
Proof.
  intros (HG & Hdom & Hlink & Hsort) H Hmax.
  apply createElement_cases in H as (-> & HG' & _ & Hcases). simpl in Hcases.
  rewrite N.mod_small in HG' by lia.
  remember (m_globalID st) as G eqn:HeqG. remember (m_elements st) as E eqn:HeqE.
  assert (Hfresh : E !! G = None).
  { destruct (E !! G) eqn:Hl; [|done].
    assert (is_Some (E !! G)) as Hs%Hdom by eauto. lia. }
  assert (HnoG : ∀ c, ¬ is_child E G c).
  { intros c (e0 & He0 & _). congruence. }
  assert (HGno : ∀ p, ¬ is_child E p G).
  { intros p [_ Hp]%Hlink. by rewrite Hfresh in Hp. }
  assert (HpG : ∀ p, parent <$> (E !! G) ≠ Some p) by (intros p; by rewrite Hfresh).
  assert (HG0 : G ≠ 0%N) by lia.
  assert (Hnew : ∀ c, ¬ (G ≠ 0%N ∧ parent <$> (E !! c) = Some G)).
  { intros c Hc%Hlink. by apply (HnoG c). }
  unfold registry_inv. rewrite HG'.
  destruct Hcases as [[Hp ->]|[(Hp & Hs & ->)|(Hp & Hs & q & Hq & ->)]].
  - split; [lia|]. split; [|split].
    + intros k. rewrite lookup_insert_is_Some, Hdom. lia.
    + intros p c. rewrite is_child_insert, parent_lookup_insert, Hlink. simpl.
      rewrite elem_of_nil. specialize (HGno p). rewrite Hlink in HGno.
      specialize (Hnew c). specialize (HpG p).
      clear Hdom Hlink Hsort HnoG HG HG' Hmax Hfresh.
      destruct (decide (c = G)), (decide (p = G));
        (split; intros ?; split_hyps; prove_link).
    + intros id el'. rewrite lookup_insert. destruct (decide (G = id)) as [<-|].
      * intros [= <-]. simpl. split; constructor.
      * by apply Hsort.
  - split; [lia|]. split; [|split].
    + intros k. rewrite lookup_insert_is_Some, Hdom. lia.
    + intros p c. rewrite is_child_insert, parent_lookup_insert, Hlink. simpl.
      rewrite list_elem_of_singleton. specialize (HGno p). rewrite Hlink in HGno.
      specialize (Hnew c). specialize (HpG p).
      clear Hdom Hlink Hsort HnoG HG HG' Hmax Hfresh.
      destruct (decide (c = G)), (decide (p = G));
        (split; intros ?; split_hyps; prove_link).
    + intros id el'. rewrite lookup_insert. destruct (decide (G = id)) as [<-|].
      * intros [= <-]. simpl. split.
        -- repeat constructor.
        -- constructor; [lia|constructor].
      * by apply Hsort.
  - assert (Hq' : (0 < parent el < G)%N) by (apply Hdom; eauto).
    split; [lia|]. split; [|split].
    + intros k. rewrite !lookup_insert_is_Some, Hdom. lia.
    + intros p c. rewrite !is_child_insert, !parent_lookup_insert, Hlink. simpl.
      rewrite elem_of_nil, elem_of_app, list_elem_of_singleton.
      pose proof (HGno p) as HGp. rewrite Hlink in HGp.
      pose proof (Hnew c) as Hnc.
      assert (Hqc : c ∈ children q ↔ parent <$> (E !! c) = Some (parent el)).
      { split.
        - intros Hc. apply (Hlink (parent el) c). by exists q.
        - intros Hpar. destruct (proj2 (Hlink (parent el) c) (conj Hp Hpar))
            as (q' & Hq'' & Hc).
          assert (q' = q) as -> by congruence. done. }
      assert (Hqq : parent <$> (E !! parent el) = Some (parent q)) by (by rewrite Hq).
      specialize (HpG p). rewrite Hqc.
      clear Hdom Hlink Hsort HnoG HGno Hnew HG HG' Hmax Hfresh Hq' Hqc.
      destruct (decide (p = parent el)), (decide (c = parent el)),
        (decide (c = G)), (decide (p = G));
        (split; intros ?; split_hyps; prove_link).
    + intros id el'. rewrite lookup_insert.
      destruct (decide (parent el = id)) as [<-|Hne].
      * intros [= <-]. simpl. destruct (Hsort _ _ Hq) as [Hss Hge].
        assert (Hlt : Forall (λ c, (c < G)%N) (children q)).
        { apply Forall_forall. intros c Hc.
          assert (is_child E (parent el) c) as [_ Hc']%Hlink by (by exists q).
          destruct (E !! c) eqn:Hl; [|done].
          assert (is_Some (E !! c)) as Hs'%Hdom by eauto. lia. }
        split.
        -- apply StronglySorted_app_2; [|done|by repeat constructor].
           intros x1 x2 Hx1 ->%list_elem_of_singleton.
           rewrite Forall_forall in Hlt. by apply Hlt.
        -- apply Forall_app. split; [done|]. constructor; [lia|constructor].
      * rewrite lookup_insert. destruct (decide (G = id)) as [<-|].
        -- intros [= <-]. simpl. split; constructor.
        -- by apply Hsort.
Qed.

Lemma createAll_registry_inv els : ∀ st ids st',
  registry_inv st →
  createAll els st = Some (ids, st') →
  (m_globalID st + N.of_nat (length els) < 2 ^ 64)%N →
  registry_inv st'.
Proof.
  induction els as [|el els IH]; intros st ids st' Hinv H Hlt; simpl in H.
  - by inversion H; subst.
  - destruct (createElement el st) as [[id st1]|] eqn:Hc; simpl in H; [|done].
    destruct (createAll els st1) as [[ids1 st2]|] eqn:Ha; simpl in H; [|done].
    inversion H; subst; clear H.
    assert (Hlen : (N.of_nat (length (el :: els)) = N.of_nat (length els) + 1)%N)
      by (simpl length; lia).
    rewrite Hlen in Hlt.
    pose proof (createElement_inv _ _ _ _ Hc) as (_ & Hg & _).
    rewrite N.mod_small in Hg by lia.
    apply (IH st1 ids1); [|done|rewrite Hg; lia].
    eapply createElement_registry_inv; [done|exact Hc|lia].
Qed.

Lemma built_registry_inv els ids st :
  createAll els newFlexer = Some (ids, st) →
  (N.of_nat (length els) < 2 ^ 64 - 1)%N →
  registry_inv st.
Proof.
  intros H Hlt. eapply createAll_registry_inv; [apply registry_inv_newFlexer|exact H|].
  simpl. lia.
Qed.

(** X3: [createElement] keeps the tree well formed, unless the call names
    the identity it is about to allocate as its own parent (or the 64-bit
    counter is exhausted). *)
Theorem X3_createElement_keeps_tree el st id st' :
  wf_tree st →
  createElement el st = Some (id, st') →
  parent el ≠ id →
  (m_globalID st + 1 < 2 ^ 64)%N →
  wf_tree st'.
Proof. apply createElement_wf. Qed.

Lemma X3_createElement_keeps_tree_witness :
  wf_tree (built [defaultElement; mkElement 1%N defaultRect 0%N 3%N 3%N [] Vertical]).
Proof.
  apply (X3_createElement_keeps_tree
           (mkElement 1%N defaultRect 0%N 3%N 3%N [] Vertical)
           (built [defaultElement]) 2%N).
  - apply (bool_decide_unpack _). vm_compute. reflexivity.
  - vm_compute. reflexivity.
  - discriminate.
  - vm_compute. reflexivity.
Defined.

(** X4: on an engine filled by [createElement] alone, [getElement]
    returns a non-null pointer for exactly the identities that the calls
    returned; in particular never for the sentinel 0. *)
Theorem X4_getElement_registered els ids st k :
  createAll els newFlexer = Some (ids, st) →
  (N.of_nat (length els) < 2 ^ 64 - 1)%N →
  (is_Some (getElement k st) ↔ k ∈ ids) ∧ getElement 0%N st = None.
Proof.
  intros H Hlt.
  destruct (built_registry_inv _ _ _ H Hlt) as (_ & Hdom & _).
  pose proof (createAll_globalID _ _ _ _ H) as HG.
  pose proof (createAll_ids _ _ _ _ H) as Hids.
  simpl in HG, Hids. specialize (HG ltac:(lia)). specialize (Hids ltac:(lia)).
  unfold getElement. split.
  - rewrite Hdom, HG, Hids, list_elem_of_fmap. split.
    + intros Hk. exists (N.to_nat k - 1)%nat. split; [lia|].
      apply elem_of_seq. lia.
    + intros (i & -> & Hi%elem_of_seq). lia.
  - destruct (m_elements st !! 0%N) eqn:Hl; [|done].
    assert (is_Some (m_elements st !! 0%N)) as Hs%Hdom by eauto. lia.
Qed.

Lemma X4_getElement_registered_witness :
  (is_Some (getElement 6%N demo) ↔ 6%N ∈ [1%N; 2%N; 3%N; 4%N; 5%N]) ∧
  getElement 0%N demo = None.
Proof.
  apply (X4_getElement_registered
           [ mkElement 0%N (mkRect 10 10 236 220) 1%N 3%N 3%N [] Vertical;
             mkElement 1%N (mkRect 0 0 0 40) 0%N 3%N 3%N [] Horizontal;
             mkElement 2%N (mkRect 0 0 60 0) 1%N 3%N 3%N [] Horizontal;
             mkElement 2%N (mkRect 0 0 60 0) 0%N 3%N 3%N [] Horizontal;
             mkElement 2%N (mkRect 0 0 60 0) 1%N 3%N 3%N [] Horizontal ]).
  - vm_compute. reflexivity.
  - vm_compute. reflexivity.
Defined.

(** X5: on an engine filled by [createElement] alone, the two directions
    of the tree agree: [c] is listed among the children of [p] exactly when
    the element [c] names [p], other than the sentinel, as its parent. *)
Theorem X5_parent_children_agree els ids st p c :
  createAll els newFlexer = Some (ids, st) →
  (N.of_nat (length els) < 2 ^ 64 - 1)%N →
  (is_child (m_elements st) p c ↔
   p ≠ 0%N ∧ parent <$> getElement c st = Some p).
Proof.
  intros H Hlt. destruct (built_registry_inv _ _ _ H Hlt) as (_ & _ & Hlink & _).
  apply Hlink.
Qed.

Lemma X5_parent_children_agree_witness :
  is_child (m_elements demo) 2%N 4%N ↔
  2%N ≠ 0%N ∧ parent <$> getElement 4%N demo = Some 2%N.
Proof.
  apply (X5_parent_children_agree
           [ mkElement 0%N (mkRect 10 10 236 220) 1%N 3%N 3%N [] Vertical;
             mkElement 1%N (mkRect 0 0 0 40) 0%N 3%N 3%N [] Horizontal;
             mkElement 2%N (mkRect 0 0 60 0) 1%N 3%N 3%N [] Horizontal;
             mkElement 2%N (mkRect 0 0 60 0) 0%N 3%N 3%N [] Horizontal;
             mkElement 2%N (mkRect 0 0 60 0) 1%N 3%N 3%N [] Horizontal ]
           [1%N; 2%N; 3%N; 4%N; 5%N]).
  - vm_compute. reflexivity.
  - vm_compute. reflexivity.
Defined.

(** X6: on an engine filled by [createElement] alone, every children
    sequence is strictly increasing, that is, in creation order and without
    repetition, and lists no identity older than its owner. *)
Theorem X6_children_creation_order els ids st id el :
  createAll els newFlexer = Some (ids, st) →
  (N.of_nat (length els) < 2 ^ 64 - 1)%N →
  getElement id st = Some el →
  StronglySorted N.lt (children el) ∧ NoDup (children el) ∧
  Forall (λ c, (id ≤ c)%N) (children el).
Proof.
  intros H Hlt Hel. destruct (built_registry_inv _ _ _ H Hlt) as (_ & _ & _ & Hsort).
  destruct (Hsort id el Hel) as [Hss Hge]. split; [done|]. split; [|done].
  clear Hge. induction Hss as [|c cs Hss IH Hall]; constructor; [|done].
  intros Hc. rewrite Forall_forall in Hall. specialize (Hall c Hc). lia.
Qed.

Lemma X6_children_creation_order_witness :
  StronglySorted N.lt [3%N; 4%N; 5%N] ∧ NoDup [3%N; 4%N; 5%N] ∧
  Forall (λ c, (2 ≤ c)%N) [3%N; 4%N; 5%N].
Proof.
  apply (X6_children_creation_order
           [ mkElement 0%N (mkRect 10 10 236 220) 1%N 3%N 3%N [] Vertical;
             mkElement 1%N (mkRect 0 0 0 40) 0%N 3%N 3%N [] Horizontal;
             mkElement 2%N (mkRect 0 0 60 0) 1%N 3%N 3%N [] Horizontal;
             mkElement 2%N (mkRect 0 0 60 0) 0%N 3%N 3%N [] Horizontal;
             mkElement 2%N (mkRect 0 0 60 0) 1%N 3%N 3%N [] Horizontal ]
           [1%N; 2%N; 3%N; 4%N; 5%N] demo 2%N
           (mkElement 1%N (mkRect 0 0 0 40) 0%N 3%N 3%N [3%N; 4%N; 5%N] Horizontal)).
  - vm_compute. reflexivity.
  - vm_compute. reflexivity.
  - vm_compute. reflexivity.
Defined.

(** ** The layout pass: failures and frame *)

Section reach.
Variable E : gmap N Element.

Lemma performContainerLayout_reaches id d :
  rtc (is_child E) id d →
  ∀ fuel st st',
    m_elements st = E →
    performContainerLayout fuel id st = Done st' →
    ∃ m s s', m_elements s = E ∧ performContainerLayout m d s = Done s'.
Proof.
  induction 1 as [id|id y d [el [Hel Hy]] _ IH]; intros fuel st st' HE H.
  { by exists fuel, st, st'. }
  destruct fuel as [|fuel]; [done|].
  apply performContainerLayout_step in H
    as [[Hn _]|(el' & total & Hel' & _ & [[Hnil _]|(_ & pb & _ & H)])].
  - unfold getElement in Hn. congruence.
  - unfold getElement in Hel'. assert (el' = el) as -> by congruence.
    rewrite Hnil in Hy. by apply elem_of_nil in Hy.
  - unfold getElement in Hel'. assert (el' = el) as -> by congruence.
    pose proof (start_elements id el st) as HE2. rewrite HE in HE2.
    destruct (layoutChildren_calls _ _ _ _ _ _
                (λ e s s' Hr, proj1 (performContainerLayout_registry _ _ _ _ Hr))
                _ _ _ HE2 H y Hy) as (s & s' & Hs & Hr).
    by eapply IH.
Qed.
End reach.

Lemma finished_pass_safe (fuel : nat) (st st' : Flexer) (d : N) :
  performLayout fuel st = Done st' →
  rtc (is_child (m_elements st)) 1%N d →
  (∀ el c, getElement d st = Some el → c ∈ children el →
           is_Some (getElement c st)) ∧
  ¬ tc (is_child (m_elements st)) d d.
Proof.
  intros H Hd.
  destruct (performContainerLayout_reaches _ _ _ Hd _ _ _ eq_refl H)
    as (m & s & s' & Hs & Hrun).
  split.
  - intros el c Hel Hc. destruct m as [|m]; [done|].
    apply performContainerLayout_step in Hrun
      as [[Hn _]|(el' & total & Hel' & Htot & _)].
    + unfold getElement in *. congruence.
    + unfold getElement in *. assert (el' = el) as -> by congruence.
      assert (is_Some (totalProportions s (children el))) as Hsome by eauto.
      rewrite totalProportions_Some in Hsome. unfold getElement in Hsome.
      rewrite <- Hs. by apply Hsome.
  - rewrite <- Hs. exact (performContainerLayout_acyclic _ _ _ _ _ eq_refl Hrun).
Qed.

(** X8: a pass that finishes has met neither a dangling child nor a
    cycle: every element reachable from identity 1 through the children
    lists has all its children registered and is not its own descendant.
    Conversely put, a children list naming an unregistered identity, or a
    cycle, below element 1 keeps [performLayout] from ever finishing (null
    pointer dereference, or recursion without end). *)
Theorem X8_finished_pass_is_safe (fuel : nat) (st st' : Flexer) (d : N) :
  performLayout fuel st = Done st' →
  rtc (is_child (m_elements st)) 1%N d →
  (∀ el c, getElement d st = Some el → c ∈ children el →
           is_Some (getElement c st)) ∧
  ¬ tc (is_child (m_elements st)) d d.
Proof. apply finished_pass_safe. Qed.

Lemma X8_finished_pass_is_safe_witness :
  (∀ el c, getElement 2%N demo = Some el → c ∈ children el →
           is_Some (getElement c demo)) ∧
  ¬ tc (is_child (m_elements demo)) 2%N 2%N.
Proof.
  apply (X8_finished_pass_is_safe 3 demo (run 3 demo) 2%N).
  - exact demo_run.
  - exact demo_child_1_2.
Defined.

(** The rectangle map only grows. *)
Lemma rectAt_keeps_key id st k :
  is_Some (m_elementLayoutRects st !! k) →
  is_Some (m_elementLayoutRects (rectAt id st).2 !! k).
Proof.
  intros [v Hv]. destruct (decide (k = id)) as [->|].
  - rewrite rectAt_lookup. eauto.
  - rewrite rectAt_other by done. eauto.
Qed.

Lemma seedRoot_keeps_key id el st k :
  is_Some (m_elementLayoutRects st !! k) →
  is_Some (m_elementLayoutRects (seedRoot id el st) !! k).
Proof.
  intros Hk. unfold seedRoot. destruct (decide _); [|done].
  simpl. rewrite lookup_insert_is_Some. destruct (decide (id = k)); auto.
Qed.

Lemma layoutChildren_keeps_keys rec el size total cs k :
  (∀ e st st', rec e st = Done st' →
     is_Some (m_elementLayoutRects st !! k) →
     is_Some (m_elementLayoutRects st' !! k)) →
  ∀ pb st st',
    layoutChildren rec el size total cs pb st = Done st' →
    is_Some (m_elementLayoutRects st !! k) →
    is_Some (m_elementLayoutRects st' !! k).
Proof.
  intros Hrec. induction cs as [|e cs IH]; intros pb st st' H Hk.
  - by inversion H; subst.
  - apply layoutChildren_step in H as (c & s1 & _ & Hrun & H).
    apply (IH _ _ _ H). apply (Hrec _ _ _ Hrun).
    simpl. rewrite lookup_insert_is_Some. destruct (decide (e = k)); auto.
Qed.

Lemma performContainerLayout_keeps_keys fuel k : ∀ id st st',
  performContainerLayout fuel id st = Done st' →
  is_Some (m_elementLayoutRects st !! k) →
  is_Some (m_elementLayoutRects st' !! k).
Proof.
  induction fuel as [|fuel IH]; intros id st st' H Hk; [done|].
  apply performContainerLayout_step in H
    as [[_ ->]|(el & total & _ & _ & [[_ ->]|(_ & pb & _ & H)])]; [done|..].
  - by apply seedRoot_keeps_key.
  - eapply layoutChildren_keeps_keys; [exact IH|exact H|].
    by apply rectAt_keeps_key, seedRoot_keeps_key.
Qed.

(** X9: a finished [performLayout] neither removes an entry of the
    rectangle map nor touches the entry of an identity that is not
    reachable from identity 1 through the children lists: rectangles of
    other trees, or left from earlier passes, stay as they are. *)
Theorem X9_layout_frame (fuel : nat) (st st' : Flexer) (k : N) :
  performLayout fuel st = Done st' →
  (is_Some (rects st !! k) → is_Some (rects st' !! k)) ∧
  (¬ rtc (is_child (m_elements st)) 1%N k → rects st' !! k = rects st !! k).
Proof.
  intros H. split.
  - by eapply performContainerLayout_keeps_keys.
  - by eapply (performContainerLayout_frame (m_elements st)).
Qed.

Lemma X9_layout_frame_witness :
  (is_Some (rects two_roots !! 2%N) → is_Some (rects (run 2 two_roots) !! 2%N)) ∧
  (¬ rtc (is_child (m_elements two_roots)) 1%N 2%N →
   rects (run 2 two_roots) !! 2%N = rects two_roots !! 2%N).
Proof.
  apply (X9_layout_frame 2 two_roots (run 2 two_roots) 2%N).
  vm_compute. reflexivity.
Defined.

Lemma performLayout_reached_rects (fuel : nat) (st st' : Flexer) (el1 : Element) (d : N) :
  wf_tree st → performLayout fuel st = Done st' →
  getElement 1%N st = Some el1 → parent el1 = 0%N →
  rtc (is_child (m_elements st)) 1%N d →
  is_Some (rects st' !! d).
Proof.
  intros Hwf H Hel1 Hroot Hd.
  apply rtc_inv_r in Hd as [<-|(p & Hp & Hpd)].
  - exists (bounds el1).
    eapply (performContainerLayout_root (m_elements st) 1%N el1 Hel1 Hroot);
      [|exact H|by left]. done.
  - pose proof (performContainerLayout_lift st Hwf fuel 1%N st st' eq_refl H p Hp)
      as Hlo.
    destruct Hpd as (el & Hel & Hc).
    destruct (Hlo el Hel) as (R & rs & _ & Hrs & Hall).
    { intros Hnil. rewrite Hnil in Hc. by apply elem_of_nil in Hc. }
    rewrite <- (childRects_fst _ _ _ _ Hrs) in Hc.
    apply list_elem_of_fmap in Hc as ([c' rc] & -> & Hin). simpl.
    exists rc. by apply Hall.
Qed.

(** X10: after a finished [performLayout] on a well-formed tree whose
    element 1 has no parent, every element reachable from identity 1 has
    an entry in the rectangle map. *)
Theorem X10_reached_have_rects (fuel : nat) (st st' : Flexer) (el1 : Element) (d : N) :
  wf_tree st → performLayout fuel st = Done st' →
  getElement 1%N st = Some el1 → parent el1 = 0%N →
  rtc (is_child (m_elements st)) 1%N d →
  is_Some (rects st' !! d).
Proof. apply performLayout_reached_rects. Qed.

Lemma X10_reached_have_rects_witness : is_Some (rects (run 3 demo) !! 2%N).
Proof.
  apply (X10_reached_have_rects 3 demo (run 3 demo)
           (mkElement 0%N (mkRect 10 10 236 220) 1%N 3%N 3%N [2%N] Vertical) 2%N).
  - exact demo_wf.
  - exact demo_run.
  - vm_compute. reflexivity.
  - reflexivity.
  - exact demo_child_1_2.
Defined.

(** X11: on an engine filled by [createElement] alone, no call naming the
    identity it was about to allocate as parent, [performLayout] finishes:
    no null pointer is dereferenced and the recursion is no deeper than the
    number of elements plus one. *)
Theorem X11_layout_finishes (els : list Element) (ids : list N) (st : Flexer) :
  createAll els newFlexer = Some (ids, st) →
  (N.of_nat (length els) < 2 ^ 64 - 1)%N →
  (∀ i el, els !! i = Some el → parent el ≠ N.of_nat (S i)) →
  ∃ st', performLayout (S (length els)) st = Done st'.
Proof.
  intros H Hlt Hself.
  assert (Hwf : wf_tree st).
  { eapply createAll_wf; [apply wf_tree_newFlexer|exact H|simpl; lia|].
    intros i el Hi. simpl. specialize (Hself i el Hi). lia. }
  pose proof (createAll_globalID _ _ _ _ H) as HG. simpl in HG.
  specialize (HG ltac:(lia)).
  destruct (performLayout_total st Hwf) as [st' Hrun].
  exists st'. replace (S (length els)) with (N.to_nat (m_globalID st)) by lia.
  done.
Qed.

Lemma X11_layout_finishes_witness : ∃ st', performLayout 6 demo = Done st'.
Proof.
  apply (X11_layout_finishes
           [ mkElement 0%N (mkRect 10 10 236 220) 1%N 3%N 3%N [] Vertical;
             mkElement 1%N (mkRect 0 0 0 40) 0%N 3%N 3%N [] Horizontal;
             mkElement 2%N (mkRect 0 0 60 0) 1%N 3%N 3%N [] Horizontal;
             mkElement 2%N (mkRect 0 0 60 0) 0%N 3%N 3%N [] Horizontal;
             mkElement 2%N (mkRect 0 0 60 0) 1%N 3%N 3%N [] Horizontal ]
           [1%N; 2%N; 3%N; 4%N; 5%N] demo).
  - vm_compute. reflexivity.
  - vm_compute. reflexivity.
  - intros i el Hi.
    do 5 (destruct i as [|i]; [inversion Hi; subst; simpl; discriminate|]).
    done.
Defined.

(** ** The layout pass: sizes and positions of the children *)

Lemma placeChild_crossPos el size total e c pb :
  crossPos (axis el) (placeChild el size total e c pb).1
    = to_int (crossPos (axis el) (bounds c)
              + (crossPos (axis el) pb + Z.of_N (border el))) ∧
  crossPos (axis el) (placeChild el size total e c pb).2 = crossPos (axis el) pb.
Proof. unfold placeChild. by destruct (axis el). Qed.

Lemma placeAll_entry st el size total cs : ∀ pb c rc,
  (c, rc) ∈ placeAll st el size total cs pb →
  ∃ ce, getElement c st = Some ce ∧
    mainSize (axis el) rc
      = (if decide (c ≠ back (children el))
         then to_int (childWidth el size total ce - Z.of_N (spacing el))
         else childWidth el size total ce) ∧
    crossPos (axis el) rc
      = to_int (crossPos (axis el) (bounds ce)
                + (crossPos (axis el) pb + Z.of_N (border el))).
Proof.
  induction cs as [|e cs IH]; intros pb c rc Hin; simpl in Hin.
  { by apply elem_of_nil in Hin. }
  destruct (getElement e st) as [ce|] eqn:Hce; [|by apply elem_of_nil in Hin].
  pose proof (placeChild_size el size total e ce pb) as Hsz.
  pose proof (placeChild_crossPos el size total e ce pb) as [Hcp Hnext].
  destruct (placeChild el size total e ce pb) as [ret pb']. simpl in *.
  apply elem_of_cons in Hin as [Heq|Hin].
  - inversion Heq; subst. by exists ce.
  - destruct (IH _ _ _ Hin) as (ce' & ? & ? & Hc). exists ce'.
    by rewrite <- Hnext.
Qed.

Lemma childRects_inv st el R rs :
  childRects st el R = Some rs →
  ∃ total pb,
    totalProportions st (children el) = Some total ∧
    reserveFixed st (axis el) (children el) R = Some pb ∧
    mainPos (axis el) pb = mainPos (axis el) R ∧
    crossPos (axis el) pb = crossPos (axis el) R ∧
    rs = placeAll st el
           (to_int (mainSize (axis el) R - fixedTotal st (axis el) (children el)
                    - Z.of_N (border el) * 2))
           total (children el) pb.
Proof.
  unfold childRects. intros H.
  destruct (totalProportions st (children el)) as [total|]; [|done]. simpl in H.
  destruct (reserveFixed st _ _ R) as [pb|] eqn:Hpb; [|done]. simpl in H.
  exists total, pb. rewrite <- (availableMainSize_spec _ _ _ _ Hpb).
  apply reserveFixed_spec in Hpb as (_ & _ & Hx & Hy).
  split_and!; try done.
  - unfold mainPos. by destruct (axis el).
  - unfold crossPos. by destruct (axis el).
  - congruence.
Qed.

(** The rectangles that the finished pass holds for the children of a
    reached container are those of [childRects], index by index. *)
Lemma performLayout_children fuel st st' d el R :
  wf_tree st → performLayout fuel st = Done st' →
  rtc (is_child (m_elements st)) 1%N d →
  getElement d st = Some el → rects st' !! d = Some R →
  ∃ rs, childRects st el R = Some rs ∧
        ∀ n c r, children el !! n = Some c → rects st' !! c = Some r →
                 rs !! n = Some (c, r).
Proof.
  intros Hwf H Hd Hel HR.
  destruct (decide (children el = [])) as [Hnil|Hne].
  { unfold childRects, totalProportions. rewrite Hnil. simpl.
    eexists. split; [done|]. intros n c r Hn. done. }
  pose proof (performLayout_laid_out _ _ _ _ Hwf H Hd) as Hlo.
  destruct (Hlo el Hel Hne) as (R' & rs & HR' & Hrs & Hall).
  assert (R' = R) as -> by congruence.
  exists rs. split; [done|].
  pose proof (childRects_fst _ _ _ _ Hrs) as Hfst.
  intros n c r Hn Hr. rewrite <- Hfst, list_lookup_fmap in Hn.
  destruct (rs !! n) as [[c' r']|] eqn:Hrsn; [|done]. simpl in Hn.
  inversion Hn; subst c'. f_equal. f_equal.
  apply list_elem_of_lookup_2 in Hrsn. apply Hall in Hrsn. congruence.
Qed.

(** X12: after a finished pass on a well-formed tree, the main-axis size
    of a child of a reached container is its stored size when its
    proportion is 0, and otherwise its proportion times the truncated
    quotient of the distributable span (the size of the container's
    rectangle minus the stored sizes of the proportion-0 children and twice
    the border) by the divisor; every child but the last of the sequence
    then loses the spacing.  All steps are 32-bit. *)
Theorem X12_child_main_size (fuel : nat) (st st' : Flexer) (d c : N)
    (el ce : Element) (R Rc : Rect) :
  wf_tree st → performLayout fuel st = Done st' →
  rtc (is_child (m_elements st)) 1%N d →
  getElement d st = Some el → c ∈ children el → getElement c st = Some ce →
  rects st' !! d = Some R → rects st' !! c = Some Rc →
  ∃ total,
    totalProportions st (children el) = Some total ∧
    mainSize (axis el) Rc =
      let size := to_int (mainSize (axis el) R
                          - fixedTotal st (axis el) (children el)
                          - Z.of_N (border el) * 2) in
      let full := if decide (proportion ce = 0%N)
                  then mainSize (axis el) (bounds ce)
                  else to_int (Z.quot size total * Z.of_N (proportion ce)) in
      if decide (c = back (children el)) then full
      else to_int (full - Z.of_N (spacing el)).
Proof.
  intros Hwf H Hd Hel Hc Hce HR HRc.
  destruct (performLayout_children _ _ _ _ _ _ Hwf H Hd Hel HR) as (rs & Hrs & Hidx).
  apply list_elem_of_lookup_1 in Hc as [n Hn].
  pose proof (Hidx n c Rc Hn HRc) as Hin. apply list_elem_of_lookup_2 in Hin.
  apply childRects_inv in Hrs as (total & pb & Htot & _ & _ & _ & ->).
  apply placeAll_entry in Hin as (ce' & Hce' & Hsz & _).
  assert (ce' = ce) as -> by congruence.
  exists total. split; [done|]. rewrite Hsz, childWidth_cases. simpl.
  destruct (decide (c = back (children el))).
  - by rewrite decide_False by (by intros ?).
  - by rewrite decide_True.
Qed.

Lemma X12_child_main_size_witness :
  ∃ total,
    totalProportions demo [3%N; 4%N; 5%N] = Some total ∧
    57 =
      let size := to_int (230 - fixedTotal demo Horizontal [3%N; 4%N; 5%N]
                          - Z.of_N 3 * 2) in
      let full := if decide (0%N = 0%N) then 60
                  else to_int (Z.quot size total * Z.of_N 0) in
      if decide (4%N = back [3%N; 4%N; 5%N]) then full
      else to_int (full - Z.of_N 3).
Proof.
  apply (X12_child_main_size 3 demo (run 3 demo) 2%N 4%N
           (mkElement 1%N (mkRect 0 0 0 40) 0%N 3%N 3%N [3%N; 4%N; 5%N] Horizontal)
           (mkElement 2%N (mkRect 0 0 60 0) 0%N 3%N 3%N [] Horizontal)
           (mkRect 13 13 230 40) (mkRect 98 16 57 34)).
  - exact demo_wf.
  - exact demo_run.
  - exact demo_child_1_2.
  - vm_compute. reflexivity.
  - set_solver.
  - vm_compute. reflexivity.
  - vm_compute. reflexivity.
  - vm_compute. reflexivity.
Defined.

(** X13: after a finished pass on a well-formed tree, the child at index
    [i] of a reached container lies, across the axis, at its stored offset
    plus the container's position plus the border, and along the axis at
    its stored offset plus the container's position plus the border plus
    the sizes (before the spacing is taken off) of the children before it.
    All steps are 32-bit. *)
Theorem X13_child_position (fuel : nat) (st st' : Flexer) (d c : N) (i : nat)
    (el ce : Element) (R Rc : Rect) :
  wf_tree st → performLayout fuel st = Done st' →
  rtc (is_child (m_elements st)) 1%N d →
  getElement d st = Some el → children el !! i = Some c →
  getElement c st = Some ce →
  rects st' !! d = Some R → rects st' !! c = Some Rc →
  ∃ total,
    totalProportions st (children el) = Some total ∧
    crossPos (axis el) Rc
      = to_int (crossPos (axis el) (bounds ce)
                + (crossPos (axis el) R + Z.of_N (border el))) ∧
    mainPos (axis el) Rc
      = to_int (mainPos (axis el) (bounds ce) + mainPos (axis el) R
                + Z.of_N (border el)
                + sumZ (take i (widths st el
                     (to_int (mainSize (axis el) R
                              - fixedTotal st (axis el) (children el)
                              - Z.of_N (border el) * 2))
                     total (children el)))).
Proof.
  intros Hwf H Hd Hel Hi Hce HR HRc.
  destruct (performLayout_children _ _ _ _ _ _ Hwf H Hd Hel HR) as (rs & Hrs & Hidx).
  pose proof (Hidx i c Rc Hi HRc) as Hrsi.
  apply childRects_inv in Hrs as (total & pb & Htot & _ & Hmp & Hcp & ->).
  exists total. split; [done|]. split.
  - apply list_elem_of_lookup_2 in Hrsi.
    apply placeAll_entry in Hrsi as (ce' & Hce' & _ & ->).
    assert (ce' = ce) as -> by congruence. by rewrite Hcp.
  - apply placeAll_positions in Hrsi as (ce' & _ & Hce' & ->).
    assert (ce' = ce) as -> by congruence. by rewrite Hmp.
Qed.

Lemma X13_child_position_witness :
  ∃ total,
    totalProportions demo [3%N; 4%N; 5%N] = Some total ∧
    crossPos Horizontal (mkRect 98 16 57 34)
      = to_int (crossPos Horizontal (mkRect 0 0 60 0)
                + (crossPos Horizontal (mkRect 13 13 230 40) + Z.of_N 3)) ∧
    mainPos Horizontal (mkRect 98 16 57 34)
      = to_int (mainPos Horizontal (mkRect 0 0 60 0)
                + mainPos Horizontal (mkRect 13 13 230 40)
                + Z.of_N 3
                + sumZ (take 1 (widths demo
                     (mkElement 1%N (mkRect 0 0 0 40) 0%N 3%N 3%N
                                [3%N; 4%N; 5%N] Horizontal)
                     (to_int (mainSize Horizontal (mkRect 13 13 230 40)
                              - fixedTotal demo Horizontal [3%N; 4%N; 5%N]
                              - Z.of_N 3 * 2))
                     total [3%N; 4%N; 5%N]))).
Proof.
  apply (X13_child_position 3 demo (run 3 demo) 2%N 4%N 1
           (mkElement 1%N (mkRect 0 0 0 40) 0%N 3%N 3%N [3%N; 4%N; 5%N] Horizontal)
           (mkElement 2%N (mkRect 0 0 60 0) 0%N 3%N 3%N [] Horizontal)
           (mkRect 13 13 230 40) (mkRect 98 16 57 34)).
  - exact demo_wf.
  - exact demo_run.
  - exact demo_child_1_2.
  - vm_compute. reflexivity.
  - reflexivity.
  - vm_compute. reflexivity.
  - vm_compute. reflexivity.
  - vm_compute. reflexivity.
Defined.

Lemma back_lookup (cs : list N) :
  cs ≠ [] → cs !! (length cs - 1)%nat = Some (back cs).
Proof.
  unfold back. induction cs as [|a cs IH]; [done|]. intros _.
  destruct cs as [|b cs]; [done|].
  replace (length (a :: b :: cs) - 1)%nat with (S (length (b :: cs) - 1))
    by (simpl; lia).
  change (List.last (a :: b :: cs) 0%N) with (List.last (b :: cs) 0%N).
  by apply IH.
Qed.

Lemma back_index (cs : list N) i c :
  NoDup cs → cs !! i = Some c → c = back cs ↔ S i = length cs.
Proof.
  intros Hnd Hi.
  assert (Hne : cs ≠ []) by (intros ->; done).
  pose proof (back_lookup cs Hne) as Hb.
  pose proof (lookup_lt_Some _ _ _ Hi) as Hlt. split.
  - intros ->. pose proof (NoDup_lookup _ _ _ _ Hnd Hi Hb). lia.
  - intros Hlen. replace (length cs - 1)%nat with i in Hb by lia. congruence.
Qed.

Lemma sumZ_app (l k : list Z) : sumZ (l ++ k) = sumZ l + sumZ k.
Proof. unfold sumZ. induction l as [|a l IH]; simpl; lia. Qed.

Lemma sumZ_take_S (l : list Z) i w :
  l !! i = Some w → sumZ (take (S i) l) = sumZ (take i l) + w.
Proof.
  intros Hi. rewrite (take_S_r _ _ _ Hi), sumZ_app. unfold sumZ. simpl. lia.
Qed.

Lemma widths_lookup st el size total cs i c ce :
  cs !! i = Some c → getElement c st = Some ce →
  widths st el size total cs !! i = Some (childWidth el size total ce).
Proof.
  intros Hi Hce. unfold widths. by rewrite list_lookup_fmap, Hi; simpl; rewrite Hce.
Qed.

(** X14: after a finished pass on a well-formed tree, two neighbouring
    children of a reached container that are stored with the same
    main-axis offset are exactly the spacing apart: the second starts where
    the first ends plus the spacing (in 32-bit arithmetic, and as plain
    integers when that sum is an [int]). *)
Theorem X14_spacing_between_neighbours (fuel : nat) (st st' : Flexer) (d : N)
    (el : Element) (R : Rect) (i : nat) (ci cj : N) (ei ej : Element)
    (ri rj : Rect) :
  wf_tree st → performLayout fuel st = Done st' →
  rtc (is_child (m_elements st)) 1%N d →
  getElement d st = Some el → rects st' !! d = Some R →
  children el !! i = Some ci → children el !! S i = Some cj →
  getElement ci st = Some ei → getElement cj st = Some ej →
  mainPos (axis el) (bounds ei) = mainPos (axis el) (bounds ej) →
  rects st' !! ci = Some ri → rects st' !! cj = Some rj →
  mainPos (axis el) rj
    = to_int (mainPos (axis el) ri + mainSize (axis el) ri
              + Z.of_N (spacing el)) ∧
  (in_int (mainPos (axis el) ri + mainSize (axis el) ri + Z.of_N (spacing el)) →
   mainPos (axis el) rj
     = mainPos (axis el) ri + mainSize (axis el) ri + Z.of_N (spacing el)).
Proof.
  intros Hwf H Hd Hel HR Hi Hj Hei Hej Hoff Hri Hrj.
  assert (Hgen : mainPos (axis el) rj
                 = to_int (mainPos (axis el) ri + mainSize (axis el) ri
                           + Z.of_N (spacing el))).
  2:{ split; [done|]. intros Hin. by rewrite Hgen, to_int_id. }
  destruct (performLayout_children _ _ _ _ _ _ Hwf H Hd Hel HR) as (rs & Hrs & Hidx).
  pose proof (Hidx i ci ri Hi Hri) as Hrsi.
  pose proof (Hidx (S i) cj rj Hj Hrj) as Hrsj.
  apply childRects_inv in Hrs as (total & pb & Htot & _ & Hmp & _ & ->).
  assert (Hnb : ci ≠ back (children el)).
  { intros Hb. apply (back_index _ i) in Hb; [|by eapply (wf_NoDup st Hwf d)|done].
    apply lookup_lt_Some in Hj. lia. }
  pose proof Hrsi as Hin. apply list_elem_of_lookup_2 in Hin.
  apply placeAll_entry in Hin as (e' & He' & Hsz & _).
  assert (e' = ei) as -> by congruence.
  rewrite decide_True in Hsz by done.
  apply placeAll_positions in Hrsi as (e1 & _ & He1 & Hpi).
  apply placeAll_positions in Hrsj as (e2 & _ & He2 & Hpj).
  assert (e1 = ei) as -> by congruence. assert (e2 = ej) as -> by congruence.
  rewrite (sumZ_take_S _ i _ (widths_lookup _ _ _ _ _ _ _ _ Hi Hei)) in Hpj.
  rewrite Hpj, Hpi, Hsz, <- Hoff, to_int_absorb.
  match goal with
  | |- _ = to_int (to_int ?a + (?w - ?s) + ?s) =>
      replace (to_int a + (w - s) + s) with (to_int a + w) by lia
  end.
  rewrite to_int_add_l. f_equal. lia.
Qed.

Lemma X14_spacing_between_neighbours_witness :
  mainPos Horizontal (mkRect 98 16 57 34)
    = to_int (mainPos Horizontal (mkRect 16 16 79 34)
              + mainSize Horizontal (mkRect 16 16 79 34) + Z.of_N 3) ∧
  (in_int (mainPos Horizontal (mkRect 16 16 79 34)
           + mainSize Horizontal (mkRect 16 16 79 34) + Z.of_N 3) →
   mainPos Horizontal (mkRect 98 16 57 34)
     = mainPos Horizontal (mkRect 16 16 79 34)
       + mainSize Horizontal (mkRect 16 16 79 34) + Z.of_N 3).
Proof.
  apply (X14_spacing_between_neighbours 3 demo (run 3 demo) 2%N
           (mkElement 1%N (mkRect 0 0 0 40) 0%N 3%N 3%N [3%N; 4%N; 5%N] Horizontal)
           (mkRect 13 13 230 40) 0 3%N 4%N
           (mkElement 2%N (mkRect 0 0 60 0) 1%N 3%N 3%N [] Horizontal)
           (mkElement 2%N (mkRect 0 0 60 0) 0%N 3%N 3%N [] Horizontal)).
  - exact demo_wf.
  - exact demo_run.
  - exact demo_child_1_2.
  - vm_compute. reflexivity.
  - vm_compute. reflexivity.
  - reflexivity.
  - reflexivity.
  - vm_compute. reflexivity.
  - vm_compute. reflexivity.
  - reflexivity.
  - vm_compute. reflexivity.
  - vm_compute. reflexivity.
Defined.

(** What [orderly] gives for the quantities of the third loop: the divisor
    is the plain sum of the proportions (or 1), the distributable span is
    computed without wrap-around, no child advances the cursor by a
    negative amount, and the advances add up to at most the span. *)
Lemma orderly_facts st el R total :
  orderly st el R → children el ≠ [] →
  totalProportions st (children el) = Some total →
  let size := mainSize (axis el) R - fixedTotal st (axis el) (children el)
              - Z.of_N (border el) * 2 in
  let P := proportionTotal st (children el) in
  let W := widths st el size total (children el) in
  total = normalise P ∧ to_int size = size ∧ 0 <= size <= INT_MAX ∧
  0 <= P ∧ 0 <= Z.of_N (border el) ∧
  0 <= fixedTotal st (axis el) (children el) ∧
  Forall (λ w, 0 <= w) W ∧
  sumZ W = fixedTotal st (axis el) (children el) + Z.quot size total * P ∧
  Z.quot size total * P <= size.
Proof.
  intros (Hmax & Hfit & Hprop & Hfix & Hoff & Hrange) Hne Htot size P W.
  assert (Hreg : ∀ e, e ∈ children el → is_Some (getElement e st)).
  { apply totalProportions_Some. by rewrite Htot. }
  unfold totalProportions in Htot.
  destruct (sumProportions st (children el) 0) as [v|] eqn:Hv; [|done].
  simpl in Htot. injection Htot as Ht.
  pose proof (fixedTotal_nonneg _ _ _ Hfix) as HF.
  pose proof (proportionTotal_nonneg st (children el)) as HP0. fold P in HP0.
  assert (Hb : 0 <= Z.of_N (border el)) by lia.
  assert (Hsz : 0 <= size <= INT_MAX) by (unfold size; lia).
  apply sumProportions_spec in Hv as [Hvm Hvr].
  assert (v = P) as ->.
  { rewrite <- (to_int_id v) by (by apply Hvr).
    rewrite <- (to_int_id P) by (unfold in_int, INT_MIN, INT_MAX in *; lia).
    apply to_int_eqm. by rewrite Z.add_0_l in Hvm. }
  pose proof (normalise_pos P) as Ht1. pose proof (normalise_ge P) as Ht2.
  rewrite Ht in Ht1, Ht2.
  assert (Hpc : ∀ e c, e ∈ children el → getElement e st = Some c →
                       Z.of_N (proportion c) <= total).
  { intros e c He Hc. pose proof (proportionTotal_bound st _ e c He Hreg Hc).
    fold P in H. lia. }
  split_and!; try lia.
  - apply to_int_id. unfold in_int, INT_MIN, INT_MAX in *. lia.
  - by apply widths_nonneg.
  - by apply widths_sum.
  - destruct (decide (P = 0)) as [->|]; [lia|].
    assert (total = P) as ->.
    { rewrite <- Ht. unfold normalise. destruct (Z.leb_spec P 0); lia. }
    rewrite Z.quot_div_nonneg by lia. rewrite Z.mul_comm. apply Z.mul_div_le. lia.
Qed.

(** X15: after a finished pass on a well-formed tree, in a reached
    container whose layout stays within the non-negative, overflow-free
    range and whose spacing is an [int], the slot of every child, that is
    its rectangle lengthened by the spacing that was taken off its end
    (nothing for the last child), has a non-negative size and lies, along
    the axis and relative to the child's stored offset, inside the
    container's rectangle less the border.  The rectangle itself may be
    shorter than nothing, the spacing being taken off unclamped; when its
    size is not negative it lies inside as well. *)
Theorem X15_child_slots_inside (fuel : nat) (st st' : Flexer) (d c : N)
    (el ce : Element) (R Rc : Rect) :
  wf_tree st → performLayout fuel st = Done st' →
  rtc (is_child (m_elements st)) 1%N d →
  getElement d st = Some el → c ∈ children el → getElement c st = Some ce →
  rects st' !! d = Some R → rects st' !! c = Some Rc →
  orderly st el R → Z.of_N (spacing el) <= INT_MAX →
  let gap := if decide (c = back (children el)) then 0
             else Z.of_N (spacing el) in
  let lo := mainPos (axis el) R + Z.of_N (border el)
            + mainPos (axis el) (bounds ce) in
  let hi := mainPos (axis el) R + mainSize (axis el) R - Z.of_N (border el)
            + mainPos (axis el) (bounds ce) in
  0 <= mainSize (axis el) Rc + gap ∧
  lo <= mainPos (axis el) Rc ∧
  mainPos (axis el) Rc + (mainSize (axis el) Rc + gap) <= hi ∧
  (0 <= mainSize (axis el) Rc →
   lo <= mainPos (axis el) Rc <= mainPos (axis el) Rc + mainSize (axis el) Rc ∧
   mainPos (axis el) Rc + mainSize (axis el) Rc <= hi).
Proof.
  intros Hwf H Hd Hel Hc Hce HR HRc Hord Hsp gap lo hi.
  assert (Hne : children el ≠ []) by (intros Hnil; rewrite Hnil in Hc; by apply elem_of_nil in Hc).
  destruct (performLayout_children _ _ _ _ _ _ Hwf H Hd Hel HR) as (rs & Hrs & Hidx).
  pose proof Hc as Hc'. apply list_elem_of_lookup_1 in Hc' as [n Hn].
  pose proof (Hidx n c Rc Hn HRc) as Hrsn.
  apply childRects_inv in Hrs as (total & pb & Htot & _ & Hmp & _ & ->).
  destruct (orderly_facts _ _ _ _ Hord Hne Htot)
    as (_ & Hid & Hsz & HP & Hb & HF & Hnn & Hsum & Hq).
  rewrite Hid in Hrsn.
  pose proof Hrsn as Hin. apply list_elem_of_lookup_2 in Hin.
  apply placeAll_entry in Hin as (e' & He' & Hms & _).
  assert (e' = ce) as -> by congruence.
  apply placeAll_positions in Hrsn as (e1 & _ & He1 & Hpos).
  assert (e1 = ce) as -> by congruence.
  rewrite Hmp in Hpos.
  set (sz := mainSize (axis el) R - fixedTotal st (axis el) (children el)
             - Z.of_N (border el) * 2) in *.
  pose proof (widths_lookup st el sz total _ _ _ _ Hn Hce) as Hw.
  pose proof (sumZ_take_S _ _ _ Hw) as HS.
  destruct (sumZ_take_mono _ n (S n) Hnn (Nat.le_succ_diag_r n)) as [[Hm0 _] Hm2].
  pose proof (Forall_lookup_1 _ _ _ _ Hnn Hw) as Hw0. simpl in Hw0.
  destruct Hord as (Hmax & _ & _ & _ & _ & Hrange).
  destruct (Hrange c ce Hc Hce) as [Hlo Hhi].
  set (w := childWidth el sz total ce) in *.
  set (S0 := sumZ (take n _)) in *.
  rewrite to_int_id in Hpos by (unfold in_int, INT_MIN, INT_MAX in *; lia).
  assert (Hslot : mainSize (axis el) Rc + gap = w).
  { unfold gap. destruct (decide (c = back (children el))) as [Hb'|Hb'].
    - rewrite decide_False in Hms by (by intros ?). lia.
    - rewrite decide_True in Hms by done.
      rewrite to_int_id in Hms by (unfold in_int, INT_MIN, INT_MAX in *; lia). lia. }
  assert (0 <= gap).
  { unfold gap. destruct (decide (c = back (children el))); lia. }
  unfold lo, hi. lia.
Qed.

Lemma X15_child_slots_inside_witness :
  let gap := if decide (4%N = back [3%N; 4%N; 5%N]) then 0 else Z.of_N 3 in
  let lo := mainPos Horizontal (mkRect 13 13 230 40) + Z.of_N 3
            + mainPos Horizontal (mkRect 0 0 60 0) in
  let hi := mainPos Horizontal (mkRect 13 13 230 40)
            + mainSize Horizontal (mkRect 13 13 230 40) - Z.of_N 3
            + mainPos Horizontal (mkRect 0 0 60 0) in
  0 <= mainSize Horizontal (mkRect 98 16 57 34) + gap ∧
  lo <= mainPos Horizontal (mkRect 98 16 57 34) ∧
  mainPos Horizontal (mkRect 98 16 57 34)
    + (mainSize Horizontal (mkRect 98 16 57 34) + gap) <= hi ∧
  (0 <= mainSize Horizontal (mkRect 98 16 57 34) →
   lo <= mainPos Horizontal (mkRect 98 16 57 34)
      <= mainPos Horizontal (mkRect 98 16 57 34)
         + mainSize Horizontal (mkRect 98 16 57 34) ∧
   mainPos Horizontal (mkRect 98 16 57 34)
     + mainSize Horizontal (mkRect 98 16 57 34) <= hi).
Proof.
  apply (X15_child_slots_inside 3 demo (run 3 demo) 2%N 4%N
           (mkElement 1%N (mkRect 0 0 0 40) 0%N 3%N 3%N [3%N; 4%N; 5%N] Horizontal)
           (mkElement 2%N (mkRect 0 0 60 0) 0%N 3%N 3%N [] Horizontal)
           (mkRect 13 13 230 40) (mkRect 98 16 57 34)).
  - exact demo_wf.
  - exact demo_run.
  - exact demo_child_1_2.
  - vm_compute. reflexivity.
  - set_solver.
  - vm_compute. reflexivity.
  - vm_compute. reflexivity.
  - vm_compute. reflexivity.
  - exact demo_orderly.
  - vm_compute. discriminate.
Defined.

(** X16: after a finished pass on a well-formed tree, in a reached
    container within the overflow-free range that has a child of positive
    proportion, the last child ends (relative to its stored offset) at the
    far border of the container less the remainder of the division of the
    distributable span by the sum of the proportions: fewer pixels than
    that sum are left unused. *)
Theorem X16_stretch_fills_span (fuel : nat) (st st' : Flexer) (d c : N)
    (el ce : Element) (R Rc : Rect) :
  wf_tree st → performLayout fuel st = Done st' →
  rtc (is_child (m_elements st)) 1%N d →
  getElement d st = Some el → children el ≠ [] → c = back (children el) →
  getElement c st = Some ce →
  rects st' !! d = Some R → rects st' !! c = Some Rc →
  orderly st el R → 1 <= proportionTotal st (children el) →
  mainPos (axis el) Rc + mainSize (axis el) Rc
    = mainPos (axis el) R + mainSize (axis el) R - Z.of_N (border el)
      + mainPos (axis el) (bounds ce)
      - (mainSize (axis el) R - fixedTotal st (axis el) (children el)
         - Z.of_N (border el) * 2) mod proportionTotal st (children el).
Proof.
  intros Hwf H Hd Hel Hne Hc Hce HR HRc Hord HP1.
  destruct (performLayout_children _ _ _ _ _ _ Hwf H Hd Hel HR) as (rs & Hrs & Hidx).
  pose proof (back_lookup _ Hne) as Hn. rewrite <- Hc in Hn.
  set (n := (length (children el) - 1)%nat) in *.
  pose proof (Hidx n c Rc Hn HRc) as Hrsn.
  apply childRects_inv in Hrs as (total & pb & Htot & _ & Hmp & _ & ->).
  destruct (orderly_facts _ _ _ _ Hord Hne Htot)
    as (Ht & Hid & Hsz & HP & Hb & HF & Hnn & Hsum & Hq).
  assert (total = proportionTotal st (children el)) as Htp.
  { rewrite Ht. unfold normalise.
    destruct (Z.leb_spec (proportionTotal st (children el)) 0); lia. }
  rewrite Hid in Hrsn.
  pose proof Hrsn as Hin. apply list_elem_of_lookup_2 in Hin.
  apply placeAll_entry in Hin as (e' & He' & Hms & _).
  assert (e' = ce) as -> by congruence.
  rewrite decide_False in Hms by (by intros ?).
  apply placeAll_positions in Hrsn as (e1 & _ & He1 & Hpos).
  assert (e1 = ce) as -> by congruence.
  rewrite Hmp in Hpos.
  set (sz := mainSize (axis el) R - fixedTotal st (axis el) (children el)
             - Z.of_N (border el) * 2) in *.
  pose proof (widths_lookup st el sz total _ _ _ _ Hn Hce) as Hw.
  pose proof (sumZ_take_S _ _ _ Hw) as HS.
  rewrite take_ge in HS.
  2:{ unfold widths. rewrite length_fmap.
      assert (0 < length (children el))%nat by (destruct (children el); [done|simpl; lia]).
      unfold n. lia. }
  destruct (sumZ_take_mono _ n n Hnn (le_n n)) as [[Hm0 _] Hm2].
  pose proof (Forall_lookup_1 _ _ _ _ Hnn Hw) as Hw0. simpl in Hw0.
  destruct Hord as (Hmax & _ & _ & _ & _ & Hrange).
  destruct (Hrange c ce) as [Hlo Hhi]; [by eapply list_elem_of_lookup_2|done|].
  rewrite Hsum in HS.
  set (P := proportionTotal st (children el)) in *.
  assert (Hdm : Z.quot sz P * P = sz - sz mod P).
  { rewrite Z.quot_div_nonneg by lia. pose proof (Z.div_mod sz P ltac:(lia)). lia. }
  set (w := childWidth el sz total ce) in *.
  set (S0 := sumZ (take n _)) in *.
  rewrite Htp in HS.
  rewrite to_int_id in Hpos by (unfold in_int, INT_MIN, INT_MAX in *; lia).
  lia.
Qed.

Lemma X16_stretch_fills_span_witness :
  mainPos Horizontal (mkRect 158 16 82 34) + mainSize Horizontal (mkRect 158 16 82 34)
    = mainPos Horizontal (mkRect 13 13 230 40)
      + mainSize Horizontal (mkRect 13 13 230 40) - Z.of_N 3
      + mainPos Horizontal (mkRect 0 0 60 0)
      - (mainSize Horizontal (mkRect 13 13 230 40)
         - fixedTotal demo Horizontal [3%N; 4%N; 5%N]
         - Z.of_N 3 * 2) mod proportionTotal demo [3%N; 4%N; 5%N].
Proof.
  apply (X16_stretch_fills_span 3 demo (run 3 demo) 2%N 5%N
           (mkElement 1%N (mkRect 0 0 0 40) 0%N 3%N 3%N [3%N; 4%N; 5%N] Horizontal)
           (mkElement 2%N (mkRect 0 0 60 0) 1%N 3%N 3%N [] Horizontal)
           (mkRect 13 13 230 40) (mkRect 158 16 82 34)).
  - exact demo_wf.
  - exact demo_run.
  - exact demo_child_1_2.
  - vm_compute. reflexivity.
  - discriminate.
  - reflexivity.
  - vm_compute. reflexivity.
  - vm_compute. reflexivity.
  - vm_compute. reflexivity.
  - exact demo_orderly.
  - vm_compute. discriminate.
Defined.

(** ** Reading rectangles *)

(** X17: [getElementRect] is idempotent and local: a second read of the
    same identity returns the same rectangle and leaves the engine as the
    first read left it; the first read changes the engine exactly when the
    identity had no entry; and no entry of another identity, nor the
    element registry, is ever touched. *)
Theorem X17_getElementRect_reads (id k : N) (st : Flexer) :
  getElementRect id (getElementRect id st).2 = getElementRect id st ∧
  ((getElementRect id st).2 = st ↔ is_Some (rects st !! id)) ∧
  (k ≠ id → rects (getElementRect id st).2 !! k = rects st !! k) ∧
  m_elements (getElementRect id st).2 = m_elements st.
Proof.
  unfold getElementRect, rectAt, rects.
  destruct (m_elementLayoutRects st !! id) as [r|] eqn:Hr; simpl.
  - rewrite Hr. split_and!; try done; split; eauto.
  - rewrite lookup_insert_eq. split_and!; try done.
    + split; [|by intros [? ?]]. intros Heq.
      assert (m_elementLayoutRects (setRect id defaultRect st) !! id = None)
        as Hl by (by rewrite Heq).
      simpl in Hl. by rewrite lookup_insert_eq in Hl.
    + intros Hk. by rewrite lookup_insert_ne.
Qed.

(** X18: after a finished [performLayout] on a well-formed tree whose
    element 1 has no parent, [getElementRect] on an element reachable from
    identity 1 returns the rectangle that the pass stored for it and leaves
    the engine unchanged. *)
Theorem X18_getElementRect_after_layout (fuel : nat) (st st' : Flexer)
    (el1 : Element) (d : N) :
  wf_tree st → performLayout fuel st = Done st' →
  getElement 1%N st = Some el1 → parent el1 = 0%N →
  rtc (is_child (m_elements st)) 1%N d →
  ∃ R, rects st' !! d = Some R ∧ getElementRect d st' = (R, st').
Proof.
  intros Hwf H Hel1 Hroot Hd.
  destruct (performLayout_reached_rects _ _ _ _ _ Hwf H Hel1 Hroot Hd) as [R HR].
  exists R. split; [done|]. unfold getElementRect, rectAt.
  unfold rects in HR. by rewrite HR.
Qed.

Lemma X18_getElementRect_after_layout_witness :
  ∃ R, rects (run 3 demo) !! 2%N = Some R ∧
       getElementRect 2%N (run 3 demo) = (R, run 3 demo).
Proof.
  apply (X18_getElementRect_after_layout 3 demo (run 3 demo)
           (mkElement 0%N (mkRect 10 10 236 220) 1%N 3%N 3%N [2%N] Vertical) 2%N).
  - exact demo_wf.
  - exact demo_run.
  - vm_compute. reflexivity.
  - reflexivity.
  - exact demo_child_1_2.
Defined.

(** ** The example program *)

Lemma OnUserCreate_demo : OnUserCreate 256 240 = Some demo.
Proof. vm_compute. reflexivity. Qed.

Lemma OnUserUpdate_Done fuel st rs st' :
  OnUserUpdate fuel st = Done (rs, st') ↔
  performLayout fuel st = Done st' ∧ rs = drawn st'.
Proof.
  unfold OnUserUpdate. destruct (performLayout fuel st); split; try done.
  - intros Heq. inversion Heq. by subst.
  - intros [Heq ->]. by inversion Heq.
  - by intros [? _].
  - by intros [? _].
Qed.

(** Evaluates the 32-bit operations whose operands are known, the
    variables [v] and [v'] standing for the unknown ones. *)
Ltac ground_ints_but v v' :=
  repeat match goal with
    | |- context [Z.of_N ?n] =>
        let t := eval vm_compute in (Z.of_N n) in
        progress change (Z.of_N n) with t
    | |- context [to_int ?z] =>
        lazymatch z with
        | context [v] => fail
        | context [v'] => fail
        | _ => let t := eval vm_compute in (to_int z) in
               progress change (to_int z) with t
        end
    end.

(** Removes, innermost first, the wraps of values that are in range. *)
Ltac strip_to_int :=
  repeat match goal with
    | |- context [to_int ?z] =>
        lazymatch z with
        | context [to_int _] => fail
        | context [Z.quot (_ - _ - _) _] => fail
        | _ => rewrite (to_int_id z) by (unfold in_int, INT_MIN, INT_MAX; lia)
        end
    end.

Lemma quot2_bound a : - 2 ^ 31 <= a <= 2 ^ 31 → - 2 ^ 30 <= Z.quot a 2 <= 2 ^ 30.
Proof.
  intros Ha. pose proof (Z.quot_rem' a 2).
  pose proof (Z.rem_bound_abs a 2 ltac:(lia)). lia.
Qed.

Lemma example_first_frame (W H : Z) :
  - 2 ^ 30 <= W <= 2 ^ 30 → - 2 ^ 30 <= H <= 2 ^ 30 →
  let q := Z.quot (W - 92) 2 in
  ∃ st st',
    OnUserCreate W H = Some st ∧
    OnUserUpdate 3 st
      = Done ([ mkRect 10 10 (W - 20) (H - 20);
                mkRect 13 13 (W - 26) 40;
                mkRect 16 16 (q - 3) 34;
                mkRect (16 + q) 16 57 34;
                mkRect (76 + q) 16 q 34 ], st').
Proof.
  intros HW HH q.
  pose proof (quot2_bound (W - 92) ltac:(lia)) as Hq. fold q in Hq.
  unfold OnUserCreate.
  rewrite !to_int_id by (unfold in_int, INT_MIN, INT_MAX; lia).
  remember (W - 20) as w0 eqn:Hw0. remember (H - 20) as h0 eqn:Hh0.
  eexists _, _. split; [vm_compute; reflexivity|].
  unfold OnUserUpdate.
  cbv -[to_int Z.sub Z.add Z.mul Z.of_N Z.quot q].
  ground_ints_but w0 h0.
  cbv -[to_int Z.sub Z.add Z.mul Z.of_N Z.quot q].
  f_equal. f_equal. subst w0 h0.
  strip_to_int.
  match goal with
  | |- context [Z.quot ?a 2] => replace a with (W - 92) by lia
  end.
  fold q. strip_to_int.
  repeat (f_equal; try lia).
Qed.

(** X19: the example program, for a screen of [W] x [H] pixels within
    2^30 either way.  [OnUserCreate] builds its tree without a null
    pointer; the first [OnUserUpdate] finishes and draws five rectangles,
    in the order of the identities: the root inset by 10, the row at the
    border of the root with its fixed height 40, and the three cells, of
    which the middle keeps its stored width less the spacing and the two
    others share what is left ([q] each, half the row less the fixed cell
    and the borders, rounded towards zero); every later [OnUserUpdate]
    finishes with the same state and draws the same again. *)
Theorem X19_example_frames (W H : Z) :
  - 2 ^ 30 <= W <= 2 ^ 30 → - 2 ^ 30 <= H <= 2 ^ 30 →
  let q := Z.quot (W - 92) 2 in
  let rs := [ mkRect 10 10 (W - 20) (H - 20);
              mkRect 13 13 (W - 26) 40;
              mkRect 16 16 (q - 3) 34;
              mkRect (16 + q) 16 57 34;
              mkRect (76 + q) 16 q 34 ] in
  ∃ st st',
    OnUserCreate W H = Some st ∧
    OnUserUpdate 3 st = Done (rs, st') ∧
    OnUserUpdate 3 st' = Done (rs, st').
Proof.
  intros HW HH q rs.
  destruct (example_first_frame W H HW HH) as (st & st' & Hc & Hu).
  exists st, st'. split; [done|]. split; [done|].
  apply OnUserUpdate_Done in Hu as [Hrun Hrs].
  apply OnUserUpdate_Done. split; [|done].
  exact (performContainerLayout_again _ _ _ _ Hrun).
Qed.

Lemma X19_example_frames_witness :
  ∃ st st',
    OnUserCreate 256 240 = Some st ∧
    OnUserUpdate 3 st
      = Done ([ mkRect 10 10 236 220; mkRect 13 13 230 40;
                mkRect 16 16 79 34; mkRect 98 16 57 34;
                mkRect 158 16 82 34 ], st') ∧
    OnUserUpdate 3 st'
      = Done ([ mkRect 10 10 236 220; mkRect 13 13 230 40;
                mkRect 16 16 79 34; mkRect 98 16 57 34;
                mkRect 158 16 82 34 ], st').
Proof.
  apply (X19_example_frames 256 240); lia.
Defined.

(** X20: the example program for any screen size, also one for which
    the 32-bit arithmetic wraps.  [OnUserCreate] never dereferences a null
    pointer and leaves a well-formed tree of five elements; every
    [OnUserUpdate] on it finishes, with a recursion three calls deep, and
    draws five rectangles. *)
Theorem X20_example_runs (W H : Z) :
  ∃ st st' rs,
    OnUserCreate W H = Some st ∧ wf_tree st ∧ m_globalID st = 6%N ∧
    OnUserUpdate 3 st = Done (rs, st') ∧ length rs = 5%nat.
Proof.
  unfold OnUserCreate.
  generalize (to_int (W - 20)) as w0. generalize (to_int (H - 20)) as h0.
  intros h0 w0.
  eexists _, _, _. split; [vm_compute; reflexivity|].
  split; [apply (bool_decide_unpack _); vm_compute; reflexivity|].
  split; [reflexivity|].
  unfold OnUserUpdate.
  cbv -[to_int Z.sub Z.add Z.mul Z.of_N Z.quot].
  split; reflexivity.
Qed.

(** ** What the pass depends on, and what it leaves out *)

(** X21: [createElement] given as parent the identity it is about to
    allocate registers an element that is its own parent and its own only
    child; once such an element is reachable from identity 1,
    [performLayout] cannot finish, whatever the depth allowed to the
    recursion. *)
Theorem X21_self_parent_cycle (el : Element) (st st' : Flexer) (id : N) :
  createElement el st = Some (id, st') →
  parent el = m_globalID st → parent el ≠ 0%N →
  getElement id st'
    = Some (mkElement id (bounds el) (proportion el) (border el) (spacing el)
              [id] (axis el)) ∧
  ∀ fuel st'', rtc (is_child (m_elements st')) 1%N id →
               performLayout fuel st' ≠ Done st''.
Proof.
  intros H Hp H0.
  destruct (createElement_cases _ _ _ _ H) as (Hid & _ & _ & Hcases).
  simpl in Hcases.
  assert (Hel : getElement id st'
                = Some (mkElement id (bounds el) (proportion el) (border el)
                          (spacing el) [id] (axis el))).
  { unfold getElement.
    destruct Hcases as [[? _]|[(_ & _ & ->)|(_ & Hne & _)]]; [done| |congruence].
    by rewrite lookup_insert_eq. }
  split; [done|]. intros fuel st'' Hreach Hrun.
  destruct (finished_pass_safe _ _ _ id Hrun Hreach) as [_ Hcyc].
  apply Hcyc, tc_once. eexists. split; [exact Hel|]. apply list_elem_of_here.
Qed.

Lemma X21_self_parent_cycle_witness :
  getElement 1%N (built [mkElement 1%N defaultRect 1%N 3%N 3%N [] Horizontal])
    = Some (mkElement 1%N (bounds (mkElement 1%N defaultRect 1%N 3%N 3%N [] Horizontal))
              1%N 3%N 3%N [1%N] Horizontal) ∧
  ∀ fuel st'',
    rtc (is_child (m_elements
           (built [mkElement 1%N defaultRect 1%N 3%N 3%N [] Horizontal]))) 1%N 1%N →
    performLayout fuel (built [mkElement 1%N defaultRect 1%N 3%N 3%N [] Horizontal])
      ≠ Done st''.
Proof.
  apply (X21_self_parent_cycle
           (mkElement 1%N defaultRect 1%N 3%N 3%N [] Horizontal) newFlexer
           (built [mkElement 1%N defaultRect 1%N 3%N 3%N [] Horizontal]) 1%N).
  - vm_compute. reflexivity.
  - reflexivity.
  - discriminate.
Defined.

(** X22: the rectangles of a finished pass depend on the element
    registry alone.  Two engines with the same registry, whatever their
    rectangle maps held before and whatever depth the recursion was
    allowed, end with the same rectangle for every element reachable from
    identity 1, provided the tree is well formed and element 1 has no
    parent: nothing left by an earlier pass is read. *)
Theorem X22_layout_reads_no_stale_rect (f1 f2 : nat) (st1 st2 st1' st2' : Flexer)
    (el1 : Element) (d : N) :
  wf_tree st1 →
  m_elements st2 = m_elements st1 → m_globalID st2 = m_globalID st1 →
  performLayout f1 st1 = Done st1' → performLayout f2 st2 = Done st2' →
  getElement 1%N st1 = Some el1 → parent el1 = 0%N →
  rtc (is_child (m_elements st1)) 1%N d →
  rects st1' !! d = rects st2' !! d.
Proof.
  intros Hwf HE HG H1 H2 Hel1 Hroot Hd.
  assert (Hwf2 : wf_tree st2).
  { unfold wf_tree in *. by rewrite HE, HG. }
  revert d Hd.
  apply (rtc_ind_r (λ d, rects st1' !! d = rects st2' !! d)); [|intros y z Hy Hyz IH].
  - transitivity (Some (bounds el1)); [|symmetry].
    + by eapply (performContainerLayout_root (m_elements st1) 1%N el1 Hel1 Hroot);
        [|exact H1|left].
    + eapply (performContainerLayout_root (m_elements st1) 1%N el1 Hel1 Hroot);
        [exact HE|exact H2|by left].
  - pose proof (performLayout_laid_out _ _ _ _ Hwf H1 Hy) as Hlo1.
    assert (Hy2 : rtc (is_child (m_elements st2)) 1%N y) by (by rewrite HE).
    pose proof (performLayout_laid_out _ _ _ _ Hwf2 H2 Hy2) as Hlo2.
    destruct Hyz as (el & Hel & Hz).
    assert (Hne : children el ≠ []).
    { intros Hnil. rewrite Hnil in Hz. by apply elem_of_nil in Hz. }
    destruct (Hlo1 el Hel Hne) as (R1 & rs1 & HR1 & Hrs1 & Hall1).
    destruct (Hlo2 el) as (R2 & rs2 & HR2 & Hrs2 & Hall2); [|done|].
    { unfold getElement. by rewrite HE. }
    assert (R2 = R1) as -> by congruence.
    rewrite (childRects_ext st2 st1) in Hrs2 by done.
    assert (rs2 = rs1) as -> by congruence.
    rewrite <- (childRects_fst _ _ _ _ Hrs1) in Hz.
    apply list_elem_of_fmap in Hz as ([z' rc] & -> & Hin). simpl.
    by rewrite (Hall1 _ _ Hin), (Hall2 _ _ Hin).
Qed.

Lemma X22_layout_reads_no_stale_rect_witness :
  rects (run 3 demo) !! 4%N = rects (run 5 (run 3 demo)) !! 4%N.
Proof.
  apply (X22_layout_reads_no_stale_rect 3 5 demo (run 3 demo)
           (run 3 demo) (run 5 (run 3 demo))
           (mkElement 0%N (mkRect 10 10 236 220) 1%N 3%N 3%N [2%N] Vertical) 4%N).
  - exact demo_wf.
  - vm_compute. reflexivity.
  - vm_compute. reflexivity.
  - exact demo_run.
  - vm_compute. reflexivity.
  - vm_compute. reflexivity.
  - reflexivity.
  - eapply rtc_r; [exact demo_child_1_2|].
    eexists. split; [vm_compute; reflexivity|]. set_solver.
Defined.

(** X23: only the tree of element 1 is laid out.  In a well-formed tree
    an element other than 1 that has no parent, and everything below it,
    keeps after a finished [performLayout] exactly the entry (or the
    absence of an entry) that the rectangle map had before. *)
Theorem X23_other_roots_ignored (fuel : nat) (st st' : Flexer) (r k : N)
    (elr : Element) :
  wf_tree st → performLayout fuel st = Done st' →
  getElement r st = Some elr → parent elr = 0%N → r ≠ 1%N →
  rtc (is_child (m_elements st)) r k →
  rects st' !! k = rects st !! k.
Proof. apply performLayout_other_roots. Qed.

Lemma X23_other_roots_ignored_witness :
  rects (run 2 two_roots) !! 2%N = rects two_roots !! 2%N.
Proof.
  apply (X23_other_roots_ignored 2 two_roots (run 2 two_roots) 2%N 2%N
           (mkElement 0%N (mkRect 5 5 50 50) 1%N 0%N 0%N [] Horizontal)).
  - apply (bool_decide_unpack _). vm_compute. reflexivity.
  - vm_compute. reflexivity.
  - vm_compute. reflexivity.
  - reflexivity.
  - discriminate.
  - apply rtc_refl.
Defined.
